(** * language-mysql: the adaptor of src/Adaptor.js, embedded and verified

    The adaptor threads a State object through a promise chain of
    Operations, bracketed by [connect] and [disconnect]/[cleanupState].
    State objects are JavaScript objects: they live in a store, are handed
    around by reference and can be mutated in place.  Driver calls, console
    output and the module-scope binding [sqlString] are kept in the same
    world, so that every effect of an Operation is visible in its result. *)

From stdpp Require Import base option list gmap strings pretty.
From Stdlib Require Import ZArith Lia Ascii.

(** ** JavaScript data *)

(** Identities of data objects and of connections. *)
Abbreviation loc := nat.

(** References to State objects. *)
Abbreviation ref := positive.

#[local] Unset Elimination Schemes.

(** Values without identity: the content of a value, and the document a
    JSON text denotes (a JSON document holds no [TDate]).  Numbers are the
    integers; a date is given by its ISO string. *)
Inductive tree : Type :=
| TNull
| TBool (b : bool)
| TNum (n : Z)
| TStr (s : string)
| TDate (iso : string)
| TArr (xs : list tree)
| TObj (fs : list (string * tree)).

(** Values as the program holds them: arrays, objects and dates are
    objects, each with its identity. *)
Inductive data : Type :=
| DNull
| DBool (b : bool)
| DNum (n : Z)
| DStr (s : string)
| DDate (id : loc) (iso : string)
| DArr (id : loc) (xs : list data)
| DObj (id : loc) (fs : list (string * data)).

#[local] Set Elimination Schemes.

Fixpoint content (d : data) : tree :=
  match d with
  | DNull => TNull
  | DBool b => TBool b
  | DNum n => TNum n
  | DStr s => TStr s
  | DDate _ iso => TDate iso
  | DArr _ xs => TArr (map content xs)
  | DObj _ fs => TObj (map (λ kv, (kv.1, content kv.2)) fs)
  end.

(** The identities of all objects reachable in a value. *)
Fixpoint ids (d : data) : list loc :=
  match d with
  | DNull | DBool _ | DNum _ | DStr _ => []
  | DDate i _ => [i]
  | DArr i xs => i :: concat (map ids xs)
  | DObj i fs => i :: concat (map (λ kv, ids kv.2) fs)
  end.

(** Allocation of a value with the given content: every object in it gets
    the next free identity. *)
Fixpoint build (t : tree) (n : loc) : data * loc :=
  match t with
  | TNull => (DNull, n)
  | TBool b => (DBool b, n)
  | TNum z => (DNum z, n)
  | TStr s => (DStr s, n)
  | TDate iso => (DDate n iso, S n)
  | TArr xs =>
      let fix elems (l : list tree) (m : loc) : list data * loc :=
        match l with
        | [] => ([], m)
        | x :: l' =>
            let '(d, m1) := build x m in
            let '(ds, m2) := elems l' m1 in
            (d :: ds, m2)
        end in
      let '(ds, m) := elems xs (S n) in
      (DArr n ds, m)
  | TObj fs =>
      let fix props (l : list (string * tree)) (m : loc)
          : list (string * data) * loc :=
        match l with
        | [] => ([], m)
        | (k, x) :: l' =>
            let '(d, m1) := build x m in
            let '(ds, m2) := props l' m1 in
            ((k, d) :: ds, m2)
        end in
      let '(ds, m) := props fs (S n) in
      (DObj n ds, m)
  end.

Definition build_list : list tree → loc → list data * loc :=
  fix elems (l : list tree) (m : loc) : list data * loc :=
    match l with
    | [] => ([], m)
    | x :: l' =>
        let '(d, m1) := build x m in
        let '(ds, m2) := elems l' m1 in
        (d :: ds, m2)
    end.

Definition build_props : list (string * tree) → loc → list (string * data) * loc :=
  fix props (l : list (string * tree)) (m : loc) : list (string * data) * loc :=
    match l with
    | [] => ([], m)
    | (k, x) :: l' =>
        let '(d, m1) := build x m in
        let '(ds, m2) := props l' m1 in
        ((k, d) :: ds, m2)
    end.

(** What allocation yields: the content asked for, on identities taken
    from the counter, which only grows. *)
Definition built (t : tree) (n : loc) : Prop :=
  n ≤ (build t n).2
  ∧ content (build t n).1 = t
  ∧ Forall (λ i, n ≤ i < (build t n).2) (ids (build t n).1).

(** [JSON.stringify]: a Date serialises through its [toJSON], that is as
    its ISO string; everything else keeps its shape.  The result stands
    for the JSON text. *)
Fixpoint to_json (t : tree) : tree :=
  match t with
  | TDate iso => TStr iso
  | TArr xs => TArr (map to_json xs)
  | TObj fs => TObj (map (λ kv, (kv.1, to_json kv.2)) fs)
  | _ => t
  end.

Definition JSON_stringify (d : data) : tree := to_json (content d).

(** [JSON.parse]: fresh objects for the document. *)
Definition JSON_parse (j : tree) (n : loc) : data * loc := build j n.

(** Data that JSON represents as it is. *)
Fixpoint plain (t : tree) : Prop :=
  match t with
  | TDate _ => False
  | TArr xs => foldr (λ x P, plain x ∧ P) True xs
  | TObj fs => foldr (λ kv P, plain kv.2 ∧ P) True fs
  | _ => True
  end.

(** Deep equality compares content, not identity. *)
Definition deep_equal (a b : data) : Prop := content a = content b.

(** Property read [v.k] on a value that is not [null]: [None] stands for
    [undefined]. *)
Fixpoint assoc (k : string) (fs : list (string * data)) : option data :=
  match fs with
  | [] => None
  | (k', d) :: fs' => if decide (k' = k) then Some d else assoc k fs'
  end.

Definition get_prop (d : data) (k : string) : option data :=
  match d with
  | DObj _ fs => assoc k fs
  | _ => None
  end.

(** ** The world of a pipeline run *)

(** Errors: a [TypeError] raised by the language, or an [Error] object made
    by a library or reported by the driver. *)
Inductive error : Type :=
| TypeError (msg : string)
| Exception (msg : string).

(** What a State object may hold in a field: data, or the live connection. *)
Inductive sval : Type :=
| SData (d : data)
| SConn (c : loc).

(** [const { host, port, ... } = v]: destructuring throws on [undefined] and
    on [null]; any other value yields its properties. *)
Definition destructure (v : option sval) : option (string → option data) :=
  match v with
  | None | Some (SData DNull) => None
  | Some (SData d) => Some (get_prop d)
  | Some (SConn _) => Some (λ _, None)
  end.

(** The options handed to [mysql.createConnection]; [None] is [undefined]. *)
Record Config := mkConfig {
  host : option data;
  user : option data;
  password : option data;
  database : option data;
  port : option data;
}.

(** Calls received by the driver. *)
Inductive call : Type :=
| CreateConnection (c : loc) (cfg : Config)
| Connect (c : loc)
| Query (c : loc) (sql : string)
| End (c : loc).

(** Arguments of [console.log]. *)
Inductive logged : Type :=
| LStr (s : string)
| LCat (pre : string) (v : option data) (post : string)
| LVal (v : option data).

(** The module-scope binding [sqlString]: the exported function, until
    something assigns to it. *)
Inductive binding : Type :=
| BFunction
| BString (s : string).

Record World := mkWorld {
  store : gmap ref (gmap string sval);
  next_id : loc;
  calls : list call;
  console : list logged;
  sqlString_binding : binding;
}.

Definition set_store (f : gmap ref (gmap string sval) → gmap ref (gmap string sval))
    (w : World) : World :=
  mkWorld (f (store w)) (next_id w) (calls w) (console w) (sqlString_binding w).

Definition set_next_id (n : loc) (w : World) : World :=
  mkWorld (store w) n (calls w) (console w) (sqlString_binding w).

Definition add_calls (cs : list call) (w : World) : World :=
  mkWorld (store w) (next_id w) (calls w ++ cs) (console w) (sqlString_binding w).

Definition console_log (ls : list logged) (w : World) : World :=
  mkWorld (store w) (next_id w) (calls w) (console w ++ ls) (sqlString_binding w).

Definition set_binding (b : binding) (w : World) : World :=
  mkWorld (store w) (next_id w) (calls w) (console w) b.

(** The object a State reference denotes. *)
Abbreviation deref w r := (store w !!! r).

(** A new State object [o]. *)
Definition alloc_state (o : gmap string sval) (w : World) : ref * World :=
  let r := fresh (dom (store w)) in
  (r, set_store (λ st, <[r := o]> st) w).

(** ** Promises, as results of a run *)

Inductive outcome (A : Type) : Type :=
| Resolved (a : A)
| Rejected (e : error).
Arguments Resolved {A} a.
Arguments Rejected {A} e.

Definition M (A : Type) : Type := World → outcome A * World.

Definition resolve {A} (a : A) : M A := λ w, (Resolved a, w).

(** [p.then(f)]: [f] runs on the value [p] resolves to; a rejection of [p]
    passes through and [f] is not called. *)
Definition then_ {A B} (p : M A) (f : A → M B) : M B :=
  λ w, match p w with
       | (Resolved a, w') => f a w'
       | (Rejected e, w') => (Rejected e, w')
       end.

(** Modelled from the spec: [execute] of language-common is not under src/.
    Section 4.1 has it run the Operations left to right, each on the State
    its predecessor produced, stop at the first failure and propagate it,
    and be the identity for no Operation; that is the reduction
    [operations.reduce((acc, op) => acc.then(op), Promise.resolve(state))]. *)
Definition commonExecute {A} (operations : list (A → M A)) : A → M A :=
  λ state, fold_left (λ acc operation, then_ acc operation) operations (resolve state).

(** An Operation takes the reference of a State and yields one. *)
Abbreviation Operation := (ref → M ref).

(** ** The libraries the adaptor imports *)

(** What the driver answers to a statement: an error, or the results and
    the field metadata handed to the callback. *)
Inductive reply : Type :=
| QueryError (err : error)
| QueryOk (results : tree) (fields : option tree).

(** The imports of Adaptor.js whose code is not in the repository:
    [expandReferences] of language-common, the query builder squel with its
    option [autoQuoteFieldNames: true] (an INSERT and an UPDATE statement
    rendered by [toParam] as a text with placeholders and the values for
    them), [mysql.format], and the database behind the driver, which
    answers a statement given the calls made so far.  Library calls that
    throw return [inl]. *)
Class Libraries : Type := {
  Fields : Type;
  expandReferences : Fields → gmap string sval → error + tree;
  squel_insert : string → tree → error + (string * list tree);
  squel_update : string → tree → error + (string * list tree);
  mysql_format : string → list tree → string;
  server : list call → loc → string → reply;
}.

(** [s.slice(n)] *)
Fixpoint slice (n : nat) (s : string) : string :=
  match n, s with
  | O, _ => s
  | S n', String _ s' => slice n' s'
  | S _, EmptyString => EmptyString
  end.

Definition dquote : string := String (Ascii.ascii_of_nat 34) EmptyString.

(** Calling [connection.m(...)] on something that has no such method. *)
Definition not_callable (m : string) : error :=
  TypeError ("connection." +:+ m +:+ " is not a function").

(** ** Adaptor.js *)

Module Adaptor.
Section adaptor.
Context `{Libraries}.

(** [connection.query(sql, callback)]: the driver records the call and
    hands the callback either the error or freshly made result objects. *)
Definition connection_query (c : loc) (sql : string) (w : World)
    : (error + data * option data) * World :=
  let w1 := add_calls [Query c sql] w in
  match server (calls w) c sql with
  | QueryError err => (inl err, w1)
  | QueryOk res flds =>
      let '(results, n1) := build res (next_id w1) in
      let '(fields, n2) :=
        match flds with
        | None => (None, n1)
        | Some f => let '(d, n) := build f n1 in (Some d, n)
        end in
      (inr (results, fields), set_next_id n2 w1)
  end.

(** The result object the callback receives when the database answers
    with the results [res] to a query made in the world [w]. *)
Definition driver_result (res : tree) (w : World) : data :=
  (build res (next_id w)).1.

(** [{ ...state, response: { body: data } }] *)
Definition nextState (state : ref) (body : data) : M ref := λ w,
  let response := DObj (next_id w) [("body", body)] in
  let w := set_next_id (S (next_id w)) w in
  let '(r, w) := alloc_state (<["response" := SData response]> (deref w state)) w in
  (Resolved r, w).

Definition connect : Operation := λ state w,
  match destructure (deref w state !! "configuration") with
  | None => (Rejected (TypeError "Cannot destructure state.configuration"), w)
  | Some prop =>
      let connection := next_id w in
      let w := set_next_id (S connection) w in
      let w := add_calls
                 [CreateConnection connection
                    (mkConfig (prop "host") (prop "user") (prop "password")
                              (prop "database") (prop "port"))] w in
      let w := add_calls [Connect connection] w in
      let w := console_log
                 [LCat ("Preparing to query " +:+ dquote) (prop "database")
                       (dquote +:+ "...")] w in
      let '(r, w) := alloc_state (<["connection" := SConn connection]> (deref w state)) w in
      (Resolved r, w)
  end.

Definition disconnect : Operation := λ state w,
  match deref w state !! "connection" with
  | Some (SConn c) => (Resolved state, add_calls [End c] w)
  | _ => (Rejected (not_callable "end"), w)
  end.

Definition cleanupState : Operation := λ state w,
  (Resolved state, set_store (alter (delete "connection") state) w).

(** [{ references: [], data: null }], the array being the object [references]. *)
Definition initialState (references : loc) : gmap string sval :=
  <["references" := SData (DArr references [])]> {["data" := SData DNull]}.

(** [{ ...initialState, ...state }]: a new object, the fields of [state]
    taking precedence. *)
Definition merge (references : loc) (state : ref) (w : World) : ref * World :=
  alloc_state (deref w state ∪ initialState references) w.

(** [execute(...operations)] makes [initialState] and returns the
    Operation that runs the bracketed sequence on the merged State. *)
Definition execute (operations : list Operation) (w : World) : Operation * World :=
  let references := next_id w in
  (λ state w,
     let '(merged, w) := merge references state w in
     commonExecute (connect :: operations ++ [disconnect; cleanupState]) merged w,
   set_next_id (S references) w).

(** The statement [insert] renders: lines 77 to 91. *)
Definition insert_statement (table : string) (fields : Fields)
    (state : gmap string sval) : error + string :=
  match expandReferences fields state with
  | inl e => inl e
  | inr valuesObj =>
      match squel_insert table valuesObj with
      | inl e => inl e
      | inr (sql, inserts) => inr (mysql_format sql inserts)
      end
  end.

Definition insert (table : string) (fields : Fields) : Operation := λ state w,
  let connection := deref w state !! "connection" in
  match insert_statement table fields (deref w state) with
  | inl e => (Rejected e, w)
  | inr sqlString =>
      let w := set_binding (BString sqlString) w in
      let w := console_log [LStr ("Executing MySQL query: " +:+ sqlString)] w in
      match connection with
      | Some (SConn c) =>
          match connection_query c sqlString w with
          | (inl err, w) =>
              let w := console_log
                         [LStr "That's an error. Disconnecting from database."] w in
              (Rejected err, add_calls [End c] w)
          | (inr (results, fields), w) =>
              let w := console_log
                         [LStr "Success..."; LVal (Some results); LVal fields] w in
              nextState state results w
          end
      | _ => (Rejected (not_callable "query"), w)
      end
  end.

Definition ON_DUPLICATE_KEY_UPDATE : string := " ON DUPLICATE KEY UPDATE ".

(** The statement [upsert] renders: lines 134 to 163. *)
Definition upsert_statement (table : string) (fields : Fields)
    (state : gmap string sval) : error + string :=
  match expandReferences fields state with
  | inl e => inl e
  | inr valuesObj =>
      match squel_insert table valuesObj with
      | inl e => inl e
      | inr (sql, inserts) =>
          let insertString := mysql_format sql inserts in
          match squel_update EmptyString valuesObj with
          | inl e => inl e
          | inr (sql, inserts) =>
              let updateString := mysql_format sql inserts in
              inr (insertString +:+ ON_DUPLICATE_KEY_UPDATE +:+ slice 10 updateString)
          end
      end
  end.

Definition upsert (table : string) (fields : Fields) : Operation := λ state w,
  let connection := deref w state !! "connection" in
  match upsert_statement table fields (deref w state) with
  | inl e => (Rejected e, w)
  | inr upsertString =>
      let w := console_log [LStr ("Executing MySQL query: " +:+ upsertString)] w in
      match connection with
      | Some (SConn c) =>
          match connection_query c upsertString w with
          | (inl err, w) =>
              let w := console_log
                         [LStr "That's an error. Disconnecting from database."] w in
              (Rejected err, add_calls [End c] w)
          | (inr (results, fields), w) =>
              let w := console_log
                         [LStr "Success..."; LVal (Some results); LVal fields] w in
              nextState state results w
          end
      | _ => (Rejected (not_callable "query"), w)
      end
  end.

Definition sqlString (fun_ : gmap string sval → string) : Operation := λ state w,
  let connection := deref w state !! "connection" in
  let body := fun_ (deref w state) in
  let w := console_log [LStr ("Executing MySQL statement: " +:+ body)] w in
  match connection with
  | Some (SConn c) =>
      match connection_query c body w with
      | (inl err, w) =>
          let w := console_log
                     [LStr "That's an error. Disconnecting from database."] w in
          (Rejected err, add_calls [End c] w)
      | (inr (results, _), w) =>
          let w := console_log [LStr "Success..."] w in
          let '(data, n) := JSON_parse (JSON_stringify results) (next_id w) in
          let w := set_next_id n w in
          let w := console_log [LVal (Some data)] w in
          nextState state data w
      end
  | _ => (Rejected (not_callable "query"), w)
  end.

(** A call [sqlString(fun_)] made through the module binding, as code that
    names the export makes it. *)
Definition call_sqlString (fun_ : gmap string sval → string) (w : World)
    : error + Operation :=
  match sqlString_binding w with
  | BFunction => inr (sqlString fun_)
  | BString _ => inl (TypeError "sqlString is not a function")
  end.

(** [execute(...operations)(state)] in one go. *)
Definition run (operations : list Operation) (state : ref) (w : World)
    : outcome ref * World :=
  let '(operation, w) := execute operations w in operation state w.

(** The State and the world the bracketed sequence starts from. *)
Definition start (state : ref) (w : World) : ref * World :=
  merge (next_id w) state (set_next_id (S (next_id w)) w).

End adaptor.
End Adaptor.

(** The Operations of the adaptor that run a statement. *)
Inductive query_op `{Libraries} : Type :=
| Insert (table : string) (fields : Fields)
| Upsert (table : string) (fields : Fields)
| SqlString (fun_ : gmap string sval → string).

Definition operation_of `{Libraries} (q : query_op) : Operation :=
  match q with
  | Insert table fields => Adaptor.insert table fields
  | Upsert table fields => Adaptor.upsert table fields
  | SqlString fun_ => Adaptor.sqlString fun_
  end.

(** The statement a query Operation sends when it runs on a State. *)
Definition statement_of `{Libraries} (q : query_op) (state : gmap string sval)
    : error + string :=
  match q with
  | Insert table fields => Adaptor.insert_statement table fields state
  | Upsert table fields => Adaptor.upsert_statement table fields state
  | SqlString fun_ => inr (fun_ state)
  end.

(** ** Counting *)

(** Occurrences of the text [p] in [s], overlapping ones included. *)
Fixpoint occurrences (p s : string) : nat :=
  (if String.prefix p s then 1 else 0) +
  match s with
  | EmptyString => 0
  | String _ s' => occurrences p s'
  end.

Fixpoint but_last (p : string) : string :=
  match p with
  | EmptyString => EmptyString
  | String _ EmptyString => EmptyString
  | String a p' => String a (but_last p')
  end.

Definition tail (p : string) : string :=
  match p with
  | EmptyString => EmptyString
  | String _ p' => p'
  end.

(** The statements among the calls [cs]. *)
Fixpoint queries (cs : list call) : list string :=
  match cs with
  | [] => []
  | Query _ sql :: cs' => sql :: queries cs'
  | _ :: cs' => queries cs'
  end.

(** Calls of [connection.end()] among the calls [cs]. *)
Fixpoint ends (cs : list call) : nat :=
  match cs with
  | [] => 0
  | End _ :: cs' => S (ends cs')
  | _ :: cs' => ends cs'
  end.

(** ** Stand-ins for the libraries, for running the adaptor *)

Module Reference.

(** A field is a literal or a reference into [state.data]. *)
Inductive field_spec : Type :=
| Lit (t : tree)
| DataValue (key : string).

Definition resolve_field (state : gmap string sval) (f : field_spec) : option tree :=
  match f with
  | Lit t => Some t
  | DataValue key =>
      match state !! "data" with
      | Some (SData d) => content <$> get_prop d key
      | _ => None
      end
  end.

(** Modelled from the spec: [expandReferences] of language-common is not
    under src/.  Sections 4.3 and 7 have it substitute the back-references
    of the field mapping against the current State, and fail with a
    Resolution Error when a referenced value cannot be found. *)
Fixpoint expand (fields : list (string * field_spec)) (state : gmap string sval)
    : error + list (string * tree) :=
  match fields with
  | [] => inr []
  | (k, f) :: rest =>
      match resolve_field state f, expand rest state with
      | Some t, inr ts => inr ((k, t) :: ts)
      | None, _ => inl (Exception "Resolution Error")
      | _, inl e => inl e
      end
  end.

Definition join (sep : string) (l : list string) : string :=
  match l with
  | [] => EmptyString
  | x :: l' => x +:+ foldr (λ y acc, sep +:+ y +:+ acc) EmptyString l'
  end.

Definition scalar (t : tree) : bool :=
  match t with
  | TNull | TBool _ | TNum _ | TStr _ => true
  | _ => false
  end.

Definition quote_name (f : string) : string := "`" +:+ f +:+ "`".

(** Modelled from the spec: the query builder is not under src/.  Section 2
    has it produce, from a table name and a mapping of column to value, a
    parameterized SQL text plus the list of values; section 8 shows the
    field names quoted.  As squel does, the stand-in refuses values that
    are not scalars and an UPDATE that sets nothing, and leaves out an
    empty table name. *)
Definition insert_toParam (table : string) (valuesObj : tree)
    : error + (string * list tree) :=
  match valuesObj with
  | TObj fs =>
      if forallb (λ kv, scalar kv.2) fs then
        inr ("INSERT INTO " +:+ table +:+
             match fs with
             | [] => EmptyString
             | _ => " (" +:+ join ", " (map (λ kv, quote_name kv.1) fs) +:+
                    ") VALUES (" +:+ join ", " (map (λ _, "?") fs) +:+ ")"
             end,
             map snd fs)
      else inl (Exception "field value must be a string, number, boolean or null")
  | _ => inl (Exception "Expected an object")
  end.

Definition update_toParam (table : string) (valuesObj : tree)
    : error + (string * list tree) :=
  match valuesObj with
  | TObj fs =>
      if forallb (λ kv, scalar kv.2) fs then
        match fs with
        | [] => inl (Exception "set() needs to be called")
        | _ =>
            inr ("UPDATE" +:+
                 match table with
                 | EmptyString => EmptyString
                 | _ => " " +:+ table
                 end +:+
                 " SET " +:+ join ", " (map (λ kv, quote_name kv.1 +:+ " = ?") fs),
                 map snd fs)
        end
      else inl (Exception "field value must be a string, number, boolean or null")
  | _ => inl (Exception "Expected an object")
  end.

(** Characters of a string literal that need a backslash. *)
Fixpoint escape_chars (s : string) : string :=
  match s with
  | EmptyString => EmptyString
  | String a s' =>
      (if decide (a = "'"%char ∨ a = "\"%char)
       then String "\"%char (String a EmptyString)
       else String a EmptyString) +:+ escape_chars s'
  end.

(** Only scalars come from the builder above. *)
Definition escape (t : tree) : string :=
  match t with
  | TNull => "NULL"
  | TBool true => "true"
  | TBool false => "false"
  | TNum n => pretty n
  | TStr s => "'" +:+ escape_chars s +:+ "'"
  | TDate iso => "'" +:+ iso +:+ "'"
  | TArr _ | TObj _ => "NULL"
  end.

(** Modelled from the spec: [mysql.format] is not under src/.  Section 2
    gives the driver the substitution and escaping of the parameters:
    each placeholder [?] takes the next value, escaped, as long as there
    are values. *)
Fixpoint format (sql : string) (values : list tree) : string :=
  match sql with
  | EmptyString => EmptyString
  | String a sql' =>
      if decide (a = "?"%char) then
        match values with
        | v :: values' => escape v +:+ format sql' values'
        | [] => String a (format sql' [])
        end
      else String a (format sql' values)
  end.

(** A database answering each statement by its text alone. *)
Definition libraries (answer : string → reply) : Libraries := {|
  Fields := list (string * field_spec);
  expandReferences fields state :=
    match expand fields state with
    | inl e => inl e
    | inr ts => inr (TObj ts)
    end;
  squel_insert := insert_toParam;
  squel_update := update_toParam;
  mysql_format := format;
  server _ _ sql := answer sql;
|}.

(** The packet the driver reports for a successful write. *)
Definition OkPacket : tree :=
  TObj [("affectedRows", TNum 1); ("insertId", TNum 7)].

Definition answer (sql : string) : reply :=
  if String.prefix "INSERT INTO t " sql then QueryOk OkPacket None
  else if decide (sql = "SELECT 1") then
    QueryOk (TArr [TObj [("1", TNum 1)]]) (Some (TArr [TObj [("name", TStr "1")]]))
  else if decide (sql = "SELECT NOW() AS t") then
    QueryOk (TArr [TObj [("t", TDate "2020-01-01T00:00:00.000Z")]]) None
  else QueryError (Exception "ER_PARSE_ERROR").

(** A caller's State: the configuration and the data of the job. *)
Definition configuration : data :=
  DObj 0 [("host", DStr "localhost"); ("port", DNum 3306);
          ("database", DStr "shop"); ("user", DStr "u"); ("password", DStr "p")].

Definition state0 : gmap string sval :=
  <["configuration" := SData configuration]>
    {["data" := SData (DObj 1 [("name", DStr "x")])]}.

Definition world0 : World :=
  mkWorld {[1%positive := state0]} 2 [] [] BFunction.

Definition libs : Libraries := libraries answer.

Definition fields1 : list (string * field_spec) :=
  [("a", Lit (TNum 1)); ("b", DataValue "name")].

(** The world once [connect] has run on the caller's State, and the State
    it resolved to. *)
Definition world1 : World := (Adaptor.connect 1%positive world0).2.
Definition state1 : ref := 2%positive.

Definition SELECT_1 : gmap string sval → string := λ _, "SELECT 1".
Definition SELECT_NOW : gmap string sval → string := λ _, "SELECT NOW() AS t".
Definition SELEC : gmap string sval → string := λ _, "SELEC".

Definition insert1 : query_op := Insert (H:=libs) "t" fields1.
Definition select1 : query_op := SqlString (H:=libs) SELECT_1.
Definition selec : query_op := SqlString (H:=libs) SELEC.

End Reference.

(** ** What an Operation does to State objects *)

(** The State [s'] in [w'] is a new object, no object of [w] has changed,
    and [s'] has the fields of [s] except, possibly, for field [k]. *)
Definition copies_with (k : string) (s : ref) (w : World) (s' : ref) (w' : World)
    : Prop :=
  (s' ∉ dom (store w))
  ∧ (∀ r, r ∈ dom (store w) → store w' !! r = store w !! r)
  ∧ (∀ k', k' ≠ k → deref w' s' !! k' = deref w s !! k').

(** An Operation that resolves does so with a copy; one that rejects has
    left the State objects alone. *)
Definition outcome_copies (k : string) (s : ref) (w : World)
    (o : outcome ref * World) : Prop :=
  match o with
  | (Resolved s', w') => copies_with k s w s' w'
  | (Rejected _, w') => store w' = store w
  end.

(** An Operation hands back a State object: this one, returning the very
    object it received with the objects of [w] unchanged. *)
Definition outcome_same (s : ref) (w : World) (o : outcome ref * World) : Prop :=
  match o with
  | (Resolved s', w') => s' = s ∧ store w' = store w
  | (Rejected _, w') => store w' = store w
  end.

(** An Operation run on the State [s] yields a new State object and does
    not change the object it received. *)
Definition yields_new_state (op : Operation) (s : ref) (w : World) : Prop :=
  ∀ s' w', op s w = (Resolved s', w') →
    s' ≠ s ∧ store w' !! s = store w !! s.

(** The body of a response is deep-equal to the result of the driver and
    shares no object with it. *)
Definition faithful_copy (body results : data) : Prop :=
  deep_equal body results ∧ ∀ i, i ∈ ids body → i ∉ ids results.

(** [sqlString(fun_)], run on [s] with the connection [c] while the driver
    answers with results, resolves to a State whose [response.body] is a
    faithful copy of the result object the driver made. *)
Definition resolves_with_faithful_copy `{Libraries}
    (fun_ : gmap string sval → string) (s : ref) (w : World) : Prop :=
  ∀ c res flds,
    deref w s !! "connection" = Some (SConn c) →
    server (calls w) c (fun_ (deref w s)) = QueryOk res flds →
    ∃ s' w' bid body,
      Adaptor.sqlString fun_ s w = (Resolved s', w')
      ∧ deref w' s' !! "response" = Some (SData (DObj bid [("body", body)]))
      ∧ faithful_copy body (Adaptor.driver_result res w).

(** An Operation without side effect: a function of the State. *)
Definition effect_free {A} (f : A → A) : A → M A := λ state, resolve (f state).

(** ** The statements and the invariant the specification describes *)

(** A [?] in a text: what the driver's [format] takes for a placeholder,
    wherever it stands. *)
Fixpoint has_placeholder (s : string) : bool :=
  match s with
  | EmptyString => false
  | String a s' => bool_decide (a = "?"%char) || has_placeholder s'
  end.

(** The single-row INSERT into [table] of the columns [ts]: the names
    quoted, the values escaped, both in the order of [ts]; for no column at
    all nothing follows the table. *)
Definition single_row_insert (table : string) (ts : list (string * tree)) : string :=
  "INSERT INTO " +:+ table +:+
  match ts with
  | [] => EmptyString
  | _ => " (" +:+ Reference.join ", " (map (λ kv, Reference.quote_name kv.1) ts)
         +:+ ") VALUES ("
         +:+ Reference.join ", " (map (λ kv, Reference.escape kv.2) ts) +:+ ")"
  end.

(** The assignment list of the columns [ts]: each quoted name with its
    escaped value. *)
Definition assignment_list (ts : list (string * tree)) : string :=
  Reference.join ", "
    (map (λ kv, Reference.quote_name kv.1 +:+ " = " +:+ Reference.escape kv.2) ts).

(** The INSERT of the columns [ts], the keyword, and after the space that
    the trimming leaves the assignments of the same columns. *)
Definition upsert_of (table : string) (ts : list (string * tree)) : string :=
  single_row_insert table ts +:+ Adaptor.ON_DUPLICATE_KEY_UPDATE +:+ " "
  +:+ assignment_list ts.

(** The libraries render as the stand-ins of the query builder and of the
    driver's [format] do; [expandReferences] and the database are free. *)
Definition renders_as_modelled `{Libraries} : Prop :=
  squel_insert = Reference.insert_toParam
  ∧ squel_update = Reference.update_toParam
  ∧ mysql_format = Reference.format.

(** What the specification says of the statement of [insert(table,
    fields)]: it is the single-row INSERT into [table] of the fields as
    they resolve against the State. *)
Definition renders_insert_of_fields `{Libraries}
    (table : string) (fields : Fields) (state : gmap string sval) : Prop :=
  ∃ ts, expandReferences fields state = inr (TObj ts)
        ∧ Adaptor.insert_statement table fields state
          = inr (single_row_insert table ts).

(** What it says of the statement of [upsert(table, fields)]: a statement
    is built, it assigns after the keyword the fields and values of its
    INSERT clause, those of the resolved fields, and holds the keyword
    exactly once. *)
Definition renders_upsert_of_fields `{Libraries}
    (table : string) (fields : Fields) (state : gmap string sval) : Prop :=
  ∃ ts, expandReferences fields state = inr (TObj ts)
        ∧ Adaptor.upsert_statement table fields state = inr (upsert_of table ts)
        ∧ occurrences Adaptor.ON_DUPLICATE_KEY_UPDATE (upsert_of table ts) = 1.

(** An Operation that resolves hands on the connection field as it found
    it. *)
Definition keeps_connection (op : Operation) : Prop :=
  ∀ s w s' w', op s w = (Resolved s', w') →
    deref w' s' !! "connection" = deref w s !! "connection".

(** What the specification says of the connection over a run that
    succeeds: none in the State before [connect], none in the State
    returned, and one and the same connection in the State after each of
    the Operations from [connect] to [disconnect]. *)
Definition connection_invariant (operations : list Operation)
    (state : ref) (w : World) : Prop :=
  ∀ r w', Adaptor.run operations state w = (Resolved r, w') →
    deref (Adaptor.start state w).2 (Adaptor.start state w).1 !! "connection" = None
    ∧ deref w' r !! "connection" = None
    ∧ ∃ c, ∀ k, 1 ≤ k ≤ length operations + 2 →
        ∃ sk wk,
          commonExecute
            (take k (Adaptor.connect :: operations
                       ++ [Adaptor.disconnect; Adaptor.cleanupState]))
            (Adaptor.start state w).1 (Adaptor.start state w).2
          = (Resolved sk, wk)
          ∧ deref wk sk !! "connection" = Some (SConn c).

(** ** Further notions, and cases for the theorems at work *)

Definition is_insert `{Libraries} (q : query_op) : bool :=
  match q with
  | Insert _ _ => true
  | _ => false
  end.

Definition missing_configuration : error :=
  TypeError "Cannot destructure state.configuration".

(** What a query Operation logs in front of its statement: lines 93, 165
    and 208. *)
Definition announcement `{Libraries} (q : query_op) : string :=
  match q with
  | SqlString _ => "Executing MySQL statement: "
  | _ => "Executing MySQL query: "
  end.

Definition That's_an_error : logged :=
  LStr "That's an error. Disconnecting from database.".

(** The objects of the world [w] are as they were in the world [wk]. *)
Definition untouched (w wk : World) : Prop :=
  ∀ r, r ∈ dom (store w) → store wk !! r = store w !! r.

(** The State [s] of [wk] is none of the objects of [w], which are as they
    were. *)
Definition apart (w : World) (s : ref) (wk : World) : Prop :=
  (s ∉ dom (store w)) ∧ untouched w wk.

Module Cases.

(** A caller's State that has no configuration. *)
Definition bare_world : World :=
  mkWorld {[1%positive := {["data" := SData DNull]}]} 0 [] [] BFunction.

(** A user Operation, [state => { data: state.data }] say, whose State has
    lost the connection. *)
Definition forget_connection : Operation := λ state w,
  let '(r, w) := alloc_state (delete "connection" (deref w state)) w in
  (Resolved r, w).

Definition upsert1 : query_op := Upsert (H:=Reference.libs) "t" Reference.fields1.

(** A field mapping with a reference that does not resolve. *)
Definition dangling : query_op :=
  Insert (H:=Reference.libs) "t" [("a", Reference.DataValue "missing")].


(** A caller's State that still carries the connection of an earlier run. *)
Definition stale_world : World :=
  mkWorld {[1%positive := <["connection" := SConn 2]> Reference.state0]}
    3 [] [] BFunction.

(** A user Operation that opens a connection of its own and puts it into
    the State. *)
Definition own_connection : Operation := λ state w,
  let connection := next_id w in
  let w := set_next_id (S connection) w in
  let w := add_calls
             [CreateConnection connection (mkConfig None None None None None);
              Connect connection] w in
  let '(r, w) := alloc_state (<["connection" := SConn connection]> (deref w state)) w in
  (Resolved r, w).

Definition two_numbers : list (string * Reference.field_spec) :=
  [("a", Reference.Lit (TNum 1)); ("b", Reference.Lit (TNum 2))].

Definition the_keyword : list (string * Reference.field_spec) :=
  [("a", Reference.Lit (TStr " ON DUPLICATE KEY UPDATE "))].

End Cases.

(** * Properties *)

Ltac world_simpl :=
  cbn [store calls next_id console sqlString_binding fst snd
       console_log set_binding add_calls set_next_id set_store] in *.

(** ** The promise chain *)

Section chain.
Context {A : Type}.
Implicit Types (p : M A) (f g op : A → M A) (ops pre post : list (A → M A)).
Implicit Types (state : A) (w : World).

Lemma then_resolve a f w : then_ (resolve a) f w = f a w.
Proof. reflexivity. Qed.

Lemma then_assoc p f g w :
  then_ (then_ p f) g w = then_ p (λ a, then_ (f a) g) w.
Proof. unfold then_. destruct (p w) as [[a|e] w1]; reflexivity. Qed.

Lemma then_ext p f g w :
  (∀ a w1, f a w1 = g a w1) → then_ p f w = then_ p g w.
Proof. intros E. unfold then_. destruct (p w) as [[a|e] w1]; auto. Qed.

Lemma then_first (p q : M A) f w :
  p w = q w → then_ p f w = then_ q f w.
Proof. intros E. unfold then_. by rewrite E. Qed.

Lemma then_rejected p f w e w1 :
  p w = (Rejected e, w1) → then_ p f w = (Rejected e, w1).
Proof. intros E. unfold then_. by rewrite E. Qed.

Lemma then_resolved p f w a w1 :
  p w = (Resolved a, w1) → then_ p f w = f a w1.
Proof. intros E. unfold then_. by rewrite E. Qed.

(** A chain that resolved went through a resolved first part. *)
Lemma then_inv p f w b w2 :
  then_ p f w = (Resolved b, w2) →
  ∃ a w1, p w = (Resolved a, w1) ∧ f a w1 = (Resolved b, w2).
Proof.
  unfold then_. destruct (p w) as [[a|e] w1]; intros E; [eauto | discriminate].
Qed.

Lemma reduce_then ops : ∀ p w,
  fold_left (λ acc operation, then_ acc operation) ops p w
  = then_ p (commonExecute ops) w.
Proof.
  induction ops as [|op ops IH]; intros p w; simpl.
  - unfold then_, commonExecute, resolve. simpl.
    destruct (p w) as [[a|e] w1]; reflexivity.
  - rewrite IH, (then_assoc p op). apply then_ext. intros a w1.
    unfold commonExecute. simpl. by rewrite IH.
Qed.

Lemma commonExecute_nil state w : commonExecute (A:=A) [] state w = (Resolved state, w).
Proof. reflexivity. Qed.

Lemma commonExecute_cons op ops state w :
  commonExecute (op :: ops) state w = then_ (op state) (commonExecute ops) w.
Proof. unfold commonExecute. simpl. by rewrite reduce_then. Qed.

Lemma commonExecute_app ops1 ops2 state w :
  commonExecute (ops1 ++ ops2) state w
  = then_ (commonExecute ops1 state) (commonExecute ops2) w.
Proof.
  revert state w. induction ops1 as [|op ops1 IH]; intros state w; simpl.
  - reflexivity.
  - rewrite commonExecute_cons.
    rewrite (then_first (commonExecute (op :: ops1) state)
               (then_ (op state) (commonExecute ops1)))
      by apply commonExecute_cons.
    rewrite then_assoc. by apply then_ext.
Qed.

Lemma commonExecute_single op state w : commonExecute [op] state w = op state w.
Proof.
  rewrite commonExecute_cons. unfold then_.
  destruct (op state w) as [[a|e] w1]; reflexivity.
Qed.

(** The first rejection is the result of the whole chain. *)
Lemma commonExecute_rejected pre op post state w si wi e w' :
  commonExecute pre state w = (Resolved si, wi) →
  op si wi = (Rejected e, w') →
  commonExecute (pre ++ op :: post) state w = (Rejected e, w').
Proof.
  intros Hpre Hop. rewrite commonExecute_app.
  rewrite (then_resolved _ _ _ _ _ Hpre), commonExecute_cons.
  by apply then_rejected.
Qed.

(** A chain that resolved ran every Operation, each on what its
    predecessor resolved to. *)
Lemma commonExecute_split pre op post state w s' w' :
  commonExecute (pre ++ op :: post) state w = (Resolved s', w') →
  ∃ sa wa sb wb,
    commonExecute pre state w = (Resolved sa, wa) ∧
    op sa wa = (Resolved sb, wb) ∧
    commonExecute post sb wb = (Resolved s', w').
Proof.
  rewrite commonExecute_app. intros (sa & wa & Hpre & Hrest)%then_inv.
  rewrite commonExecute_cons in Hrest.
  apply then_inv in Hrest as (sb & wb & Hop & Hpost). eauto 8.
Qed.

Lemma commonExecute_effect_free (hs : list (A → A)) : ∀ state w,
  commonExecute (map effect_free hs) state w
  = (Resolved (fold_left (λ s h, h s) hs state), w).
Proof.
  induction hs as [|h hs IH]; intros state w; simpl.
  - reflexivity.
  - rewrite commonExecute_cons. unfold effect_free at 1. by rewrite then_resolve, IH.
Qed.

(** A property of the State and the world that every Operation of a chain
    keeps holds when the chain resolves. *)
Lemma commonExecute_invariant (I : A → World → Prop) ops :
  Forall (λ op, ∀ s w s' w', I s w → op s w = (Resolved s', w') → I s' w') ops →
  ∀ state w s' w',
    I state w → commonExecute ops state w = (Resolved s', w') → I s' w'.
Proof.
  induction 1 as [|op ops Hop _ IH]; intros state w s' w' HI.
  - rewrite commonExecute_nil. by intros [= <- <-].
  - rewrite commonExecute_cons. intros (a & w1 & H1 & H2)%then_inv. eauto.
Qed.

End chain.

(** C5: the Pipeline Executor folds effect-free Operations left to right
    over the initial State; an Operation runs on the State the Operations
    before it produced, not on the initial one; for no Operation the
    Executor is the identity and for one Operation it is that Operation. *)
Theorem pipeline_folds_left_to_right {A} (pre post : list (A → A)) (f : A → A)
    (S : A) (w : World) :
  (∀ fs : list (A → A),
     commonExecute (map effect_free fs) S w
     = (Resolved (fold_left (λ s f, f s) fs S), w))
  ∧ commonExecute (map effect_free (pre ++ f :: post)) S w
    = commonExecute (map effect_free post) (f (fold_left (λ s f, f s) pre S)) w
  ∧ commonExecute (A:=A) [] S w = (Resolved S, w)
  ∧ (∀ o : A → M A, commonExecute [o] S w = o S w).
Proof.
  split; [intros fs; apply commonExecute_effect_free|].
  split; [|split; [reflexivity | intros o; apply commonExecute_single]].
  rewrite map_app, commonExecute_app.
  rewrite (then_resolved _ _ _ _ _ (commonExecute_effect_free pre S w)).
  simpl. rewrite commonExecute_cons. reflexivity.
Qed.

(** ** State objects and the lifecycle Operations *)

Lemma alloc_state_spec o w r w' :
  alloc_state o w = (r, w') →
  (r ∉ dom (store w)) ∧ (store w' = <[r := o]> (store w)) ∧ (deref w' r = o)
  ∧ (calls w' = calls w) ∧ (next_id w' = next_id w)
  ∧ (console w' = console w) ∧ (sqlString_binding w' = sqlString_binding w).
Proof.
  unfold alloc_state. intros [= <- <-]. split; [apply is_fresh|].
  split; [reflexivity|]. split; [|done].
  world_simpl. by rewrite lookup_total_insert_eq.
Qed.

Lemma run_start operations state w :
  Adaptor.run operations state w
  = commonExecute
      (Adaptor.connect :: operations ++ [Adaptor.disconnect; Adaptor.cleanupState])
      (Adaptor.start state w).1 (Adaptor.start state w).2.
Proof.
  unfold Adaptor.run, Adaptor.execute, Adaptor.start.
  by destruct (Adaptor.merge _ _ _).
Qed.

Lemma start_spec state w :
  deref (Adaptor.start state w).2 (Adaptor.start state w).1
  = deref w state ∪ Adaptor.initialState (next_id w)
  ∧ calls (Adaptor.start state w).2 = calls w
  ∧ next_id (Adaptor.start state w).2 = S (next_id w).
Proof.
  unfold Adaptor.start, Adaptor.merge.
  destruct (alloc_state _ _) as [r w'] eqn:E. simpl.
  apply alloc_state_spec in E as (_ & _ & -> & -> & -> & _). done.
Qed.

Lemma connect_resolved state w s1 w1 :
  Adaptor.connect state w = (Resolved s1, w1) →
  ∃ cfg,
    is_Some (deref w state !! "configuration")
    ∧ (deref w1 s1 = <["connection" := SConn (next_id w)]> (deref w state))
    ∧ (s1 ∉ dom (store w))
    ∧ (store w1 = <[s1 := deref w1 s1]> (store w))
    ∧ (calls w1 = calls w ++ [CreateConnection (next_id w) cfg; Connect (next_id w)]).
Proof.
  unfold Adaptor.connect.
  destruct (destructure _) as [prop|] eqn:Hc; [|discriminate].
  destruct (alloc_state _ _) as [r w0] eqn:E. intros [= <- <-].
  apply alloc_state_spec in E as (Hf & Hst & Hdr & Hcalls & _).
  eexists. split; [|split; [|split; [|split]]].
  - destruct (deref w state !! "configuration"); [by eexists | discriminate].
  - by rewrite Hdr.
  - exact Hf.
  - by rewrite Hdr, Hst.
  - rewrite Hcalls. simpl. by rewrite <- app_assoc.
Qed.

Lemma disconnect_resolved state w s' w' :
  Adaptor.disconnect state w = (Resolved s', w') →
  ∃ c, deref w state !! "connection" = Some (SConn c)
       ∧ s' = state ∧ w' = add_calls [End c] w.
Proof.
  unfold Adaptor.disconnect.
  destruct (deref w state !! "connection") as [[d|c]|]; try discriminate.
  intros [= <- <-]. eauto.
Qed.

(** C4: when the Operation at some position of the bracketed sequence
    rejects, the run rejects with that error and the world is the one the
    failing Operation left: no later Operation, [disconnect] and
    [cleanupState] included, has run, whatever the later Operations are. *)
Theorem rejection_aborts_run (operations pre post : list Operation) (op : Operation)
    (state : ref) (w : World) (si : ref) (wi : World) (e : error) (w' : World) :
  Adaptor.connect :: operations ++ [Adaptor.disconnect; Adaptor.cleanupState]
    = pre ++ op :: post →
  commonExecute pre (Adaptor.start state w).1 (Adaptor.start state w).2
    = (Resolved si, wi) →
  op si wi = (Rejected e, w') →
  Adaptor.run operations state w = (Rejected e, w')
  ∧ ∀ post' : list Operation,
      commonExecute (pre ++ op :: post') (Adaptor.start state w).1
        (Adaptor.start state w).2 = (Rejected e, w').
Proof.
  intros Hsplit Hpre Hop. split.
  - rewrite run_start, Hsplit. by eapply commonExecute_rejected.
  - intros post'. by eapply commonExecute_rejected.
Qed.

(** C3: a run that succeeds is the run of [connect] on the merged State,
    then of the user Operations, in their order, each on the State and the
    world its predecessor left, then of [disconnect] and of [cleanupState]
    on what the last user Operation left; the driver calls of [connect] are
    the first of the run and the call of [end] by [disconnect] the last. *)
Theorem execute_runs_bracketed_sequence (operations : list Operation)
    (state : ref) (w : World) (r : ref) (w' : World) :
  Adaptor.run operations state w = (Resolved r, w') →
  ∃ s1 w1 s2 w2 w3,
    Adaptor.connect (Adaptor.start state w).1 (Adaptor.start state w).2
      = (Resolved s1, w1)
    ∧ commonExecute operations s1 w1 = (Resolved s2, w2)
    ∧ Adaptor.disconnect s2 w2 = (Resolved s2, w3)
    ∧ Adaptor.cleanupState s2 w3 = (Resolved r, w')
    ∧ is_Some (deref w state !! "configuration")
    ∧ (∃ c cfg, calls w1 = calls w ++ [CreateConnection c cfg; Connect c])
    ∧ (∃ c', calls w' = calls w2 ++ [End c'])
    ∧ (∀ pre op post, operations = pre ++ op :: post →
         ∃ sa wa sb wb,
           commonExecute pre s1 w1 = (Resolved sa, wa)
           ∧ op sa wa = (Resolved sb, wb)
           ∧ commonExecute post sb wb = (Resolved s2, w2)).
Proof.
  rewrite run_start, commonExecute_cons.
  intros (s1 & w1 & Hconnect & Hrest)%then_inv.
  rewrite commonExecute_app in Hrest.
  apply then_inv in Hrest as (s2 & w2 & Hops & Hend).
  rewrite commonExecute_cons in Hend.
  apply then_inv in Hend as (s3 & w3 & Hdis & Hclean).
  rewrite commonExecute_single in Hclean.
  pose proof (disconnect_resolved _ _ _ _ Hdis) as (c' & _ & -> & Hw3).
  exists s1, w1, s2, w2, w3. split_and!; try done.
  - apply connect_resolved in Hconnect as (cfg & [v Hcfg] & _).
    destruct (start_spec state w) as (Hd & _). rewrite Hd in Hcfg.
    apply lookup_union_Some_raw in Hcfg as [Hcfg|[_ Hcfg]]; [by eexists|].
    unfold Adaptor.initialState in Hcfg.
    rewrite lookup_insert_ne, lookup_singleton_ne in Hcfg; done.
  - apply connect_resolved in Hconnect as (cfg & _ & _ & _ & _ & Hcalls).
    destruct (start_spec state w) as (_ & Hc & Hn).
    rewrite Hc in Hcalls. eauto.
  - exists c'. unfold Adaptor.cleanupState in Hclean.
    injection Hclean as _ <-. by rewrite Hw3.
  - intros pre op post ->. by apply commonExecute_split.
Qed.

(** ** Data: allocation and the JSON round trip *)

Lemma tree_ind' (P : tree → Prop) :
  P TNull → (∀ b, P (TBool b)) → (∀ n, P (TNum n)) → (∀ s, P (TStr s)) →
  (∀ iso, P (TDate iso)) →
  (∀ xs, Forall P xs → P (TArr xs)) →
  (∀ fs, Forall (λ kv, P kv.2) fs → P (TObj fs)) →
  ∀ t, P t.
Proof.
  intros HN HB HZ HS HD HA HO. fix IH 1. intros [ | b | n | s | iso | xs | fs].
  - exact HN.
  - apply HB.
  - apply HZ.
  - apply HS.
  - apply HD.
  - apply HA. induction xs as [|x xs IHxs]; constructor; [apply IH | exact IHxs].
  - apply HO. induction fs as [|[k x] fs IHfs]; constructor; [apply IH | exact IHfs].
Qed.

Lemma build_TArr xs n :
  build (TArr xs) n = (DArr n (build_list xs (S n)).1, (build_list xs (S n)).2).
Proof. simpl. fold build_list. by destruct (build_list xs (S n)). Qed.

Lemma build_TObj fs n :
  build (TObj fs) n = (DObj n (build_props fs (S n)).1, (build_props fs (S n)).2).
Proof. simpl. fold build_props. by destruct (build_props fs (S n)). Qed.

Lemma build_list_cons x xs m :
  build_list (x :: xs) m
  = ((build x m).1 :: (build_list xs (build x m).2).1,
     (build_list xs (build x m).2).2).
Proof.
  simpl. fold build_list. destruct (build x m) as [d m1]. simpl.
  by destruct (build_list xs m1).
Qed.

Lemma build_props_cons k x fs m :
  build_props ((k, x) :: fs) m
  = ((k, (build x m).1) :: (build_props fs (build x m).2).1,
     (build_props fs (build x m).2).2).
Proof.
  simpl. fold build_props. destruct (build x m) as [d m1]. simpl.
  by destruct (build_props fs m1).
Qed.

Lemma build_list_built xs :
  Forall (λ t, ∀ n, built t n) xs →
  ∀ m, m ≤ (build_list xs m).2
       ∧ map content (build_list xs m).1 = xs
       ∧ Forall (λ i, m ≤ i < (build_list xs m).2)
                (concat (map ids (build_list xs m).1)).
Proof.
  induction 1 as [|x xs Hx _ IH]; intros m.
  - simpl. split; [lia|]. split; [done|]. constructor.
  - rewrite build_list_cons. cbn [fst snd map concat].
    destruct (Hx m) as (Hle & Hc & Hi).
    destruct (IH (build x m).2) as (Hle' & Hc' & Hi').
    split; [lia|]. split; [by rewrite Hc, Hc'|].
    apply Forall_app. split.
    + eapply Forall_impl; [exact Hi|]. simpl. intros; lia.
    + eapply Forall_impl; [exact Hi'|]. simpl. intros; lia.
Qed.

Lemma build_props_built fs :
  Forall (λ kv, ∀ n, built kv.2 n) fs →
  ∀ m, m ≤ (build_props fs m).2
       ∧ map (λ kv, (kv.1, content kv.2)) (build_props fs m).1 = fs
       ∧ Forall (λ i, m ≤ i < (build_props fs m).2)
                (concat (map (λ kv, ids kv.2) (build_props fs m).1)).
Proof.
  induction 1 as [|[k x] fs Hx _ IH]; intros m.
  - simpl. split; [lia|]. split; [done|]. constructor.
  - rewrite build_props_cons. cbn [fst snd map concat].
    destruct (Hx m) as (Hle & Hc & Hi). simpl in Hle, Hc, Hi.
    destruct (IH (build x m).2) as (Hle' & Hc' & Hi').
    split; [lia|]. split; [by rewrite Hc, Hc'|].
    apply Forall_app. split.
    + eapply Forall_impl; [exact Hi|]. simpl. intros; lia.
    + eapply Forall_impl; [exact Hi'|]. simpl. intros; lia.
Qed.

Lemma build_built t : ∀ n, built t n.
Proof.
  induction t as [ | b | z | s | iso | xs IH | fs IH] using tree_ind'; intros n;
    unfold built.
  1-4: by (simpl; split; [lia|split; [done|constructor]]).
  - simpl. split; [lia|]. split; [done|]. repeat constructor; lia.
  - rewrite build_TArr. cbn [fst snd content ids].
    destruct (build_list_built xs IH (S n)) as (Hle & Hc & Hi).
    split; [lia|]. split; [by rewrite Hc|].
    constructor; [lia|]. eapply Forall_impl; [exact Hi|]. simpl. intros; lia.
  - rewrite build_TObj. cbn [fst snd content ids].
    destruct (build_props_built fs IH (S n)) as (Hle & Hc & Hi).
    split; [lia|]. split; [by rewrite Hc|].
    constructor; [lia|]. eapply Forall_impl; [exact Hi|]. simpl. intros; lia.
Qed.

Lemma to_json_plain t : plain t → to_json t = t.
Proof.
  induction t as [ | b | z | s | iso | xs IH | fs IH] using tree_ind'; simpl;
    try done.
  - intros Hp. f_equal. induction IH as [|x xs Hx _ IHxs]; [done|].
    simpl in *. destruct Hp as [Hpx Hpxs]. by rewrite Hx, IHxs.
  - intros Hp. f_equal. induction IH as [|[k x] fs Hx _ IHfs]; [done|].
    simpl in *. destruct Hp as [Hpx Hpfs]. by rewrite Hx, IHfs.
Qed.

(** A value parsed from the JSON text of [d] has the JSON normalisation of
    the content of [d], on identities at or above the counter. *)
Lemma JSON_round_trip d n :
  content (JSON_parse (JSON_stringify d) n).1 = to_json (content d)
  ∧ Forall (λ i, n ≤ i) (ids (JSON_parse (JSON_stringify d) n).1)
  ∧ n ≤ (JSON_parse (JSON_stringify d) n).2.
Proof.
  unfold JSON_parse, JSON_stringify.
  destruct (build_built (to_json (content d)) n) as (Hle & Hc & Hi).
  split; [done|]. split; [|done].
  eapply Forall_impl; [exact Hi|]. simpl. intros; lia.
Qed.

(** ** The Operations that run a statement *)

Section queries.
Context `{Libraries}.

Lemma connection_query_inl c sql w e w1 :
  Adaptor.connection_query c sql w = (inl e, w1) →
  server (calls w) c sql = QueryError e ∧ w1 = add_calls [Query c sql] w.
Proof.
  unfold Adaptor.connection_query.
  destruct (server (calls w) c sql) as [e'|res flds].
  - by intros [= <- <-].
  - destruct (build res _) as [results n1]. destruct flds as [f|].
    + destruct (build f n1). discriminate.
    + discriminate.
Qed.

Lemma connection_query_inr c sql w results fields w1 :
  Adaptor.connection_query c sql w = (inr (results, fields), w1) →
  ∃ res flds,
    server (calls w) c sql = QueryOk res flds
    ∧ results = (build res (next_id w)).1
    ∧ (build res (next_id w)).2 ≤ next_id w1
    ∧ store w1 = store w
    ∧ calls w1 = calls w ++ [Query c sql]
    ∧ sqlString_binding w1 = sqlString_binding w.
Proof.
  unfold Adaptor.connection_query.
  destruct (server (calls w) c sql) as [e'|res flds]; [discriminate|].
  cbn [next_id add_calls].
  destruct (build res (next_id w)) as [results' n1] eqn:Eb.
  destruct flds as [f|].
  - destruct (build f n1) as [d n] eqn:Ef. intros [= <- <- <-].
    exists res, (Some f). rewrite Eb. repeat split; simpl.
    destruct (build_built f n1) as (Hle & _). by rewrite Ef in Hle.
  - intros [= <- <- <-]. exists res, None. rewrite Eb. done.
Qed.

Lemma connection_query_result c sql w res flds :
  server (calls w) c sql = QueryOk res flds →
  ∃ fields w1,
    Adaptor.connection_query c sql w
    = (inr (Adaptor.driver_result res w, fields), w1).
Proof.
  intros Hsrv. unfold Adaptor.connection_query, Adaptor.driver_result.
  rewrite Hsrv. world_simpl. destruct (build res (next_id w)) as [results n1].
  destruct flds as [f|]; [destruct (build f n1)|]; eauto.
Qed.

Lemma nextState_spec state body w o w1 :
  Adaptor.nextState state body w = (o, w1) →
  ∃ r, o = Resolved r
       ∧ (r ∉ dom (store w))
       ∧ (store w1 = <[r := deref w1 r]> (store w))
       ∧ (deref w1 r
          = <["response" := SData (DObj (next_id w) [("body", body)])]> (deref w state))
       ∧ (calls w1 = calls w)
       ∧ (sqlString_binding w1 = sqlString_binding w).
Proof.
  unfold Adaptor.nextState.
  destruct (alloc_state _ _) as [r w0] eqn:E. intros [= <- <-].
  apply alloc_state_spec in E as (Hf & Hst & Hdr & Hcalls & _ & _ & Hb).
  exists r. rewrite Hdr, Hst. done.
Qed.

(** What a query Operation that resolved has done. *)
Lemma query_resolved q s w s' w' :
  operation_of q s w = (Resolved s', w') →
  ∃ sql c res flds bid body,
    statement_of q (deref w s) = inr sql
    ∧ deref w s !! "connection" = Some (SConn c)
    ∧ server (calls w) c sql = QueryOk res flds
    ∧ content body = match q with SqlString _ => to_json res | _ => res end
    ∧ (calls w' = calls w ++ [Query c sql])
    ∧ (s' ∉ dom (store w))
    ∧ (store w' = <[s' := deref w' s']> (store w))
    ∧ (deref w' s'
       = <["response" := SData (DObj bid [("body", body)])]> (deref w s)).
Proof.
  destruct q as [table fields|table fields|fun_]; simpl;
    [unfold Adaptor.insert | unfold Adaptor.upsert | unfold Adaptor.sqlString].
  - destruct (Adaptor.insert_statement _ _ _) as [e|sql]; [discriminate|].
    destruct (deref w s !! "connection") as [[d|c]|]; try discriminate.
    destruct (Adaptor.connection_query _ _ _) as [[err|[results flds']] w1] eqn:Eq;
      [discriminate|].
    apply connection_query_inr in Eq
      as (res & flds & Hsrv & -> & _ & Hst & Hcalls & _).
    intros (r & [= <-] & Hf & Hst' & Hdr & Hcalls' & _)%nextState_spec.
    world_simpl. rewrite Hst in *. rewrite Hcalls in *.
    exists sql, c, res, flds, (next_id w1), (build res (next_id w)).1.
    split_and!; try done. apply build_built.
  - destruct (Adaptor.upsert_statement _ _ _) as [e|sql]; [discriminate|].
    destruct (deref w s !! "connection") as [[d|c]|]; try discriminate.
    destruct (Adaptor.connection_query _ _ _) as [[err|[results flds']] w1] eqn:Eq;
      [discriminate|].
    apply connection_query_inr in Eq
      as (res & flds & Hsrv & -> & _ & Hst & Hcalls & _).
    intros (r & [= <-] & Hf & Hst' & Hdr & Hcalls' & _)%nextState_spec.
    world_simpl. rewrite Hst in *. rewrite Hcalls in *.
    exists sql, c, res, flds, (next_id w1), (build res (next_id w)).1.
    split_and!; try done. apply build_built.
  - destruct (deref w s !! "connection") as [[d|c]|]; try discriminate.
    destruct (Adaptor.connection_query _ _ _) as [[err|[results flds']] w1] eqn:Eq;
      [discriminate|].
    apply connection_query_inr in Eq
      as (res & flds & Hsrv & -> & _ & Hst & Hcalls & _).
    destruct (JSON_parse _ _) as [body n] eqn:Ep.
    intros (r & [= <-] & Hf & Hst' & Hdr & Hcalls' & _)%nextState_spec.
    world_simpl. rewrite Hst in *. rewrite Hcalls in *.
    exists (fun_ (deref w s)), c, res, flds, n, body.
    split_and!; try done.
    pose proof (JSON_round_trip (build res (next_id w)).1 (next_id w1)) as (Hc & _).
    rewrite Ep in Hc. simpl in Hc. rewrite Hc.
    f_equal. apply build_built.
Qed.

(** A query Operation whose statement the driver refuses rejects with the
    driver's error, after the query and one call of [end]. *)
Lemma query_rejected q s w sql c e :
  statement_of q (deref w s) = inr sql →
  deref w s !! "connection" = Some (SConn c) →
  server (calls w) c sql = QueryError e →
  ∃ w', operation_of q s w = (Rejected e, w')
        ∧ calls w' = calls w ++ [Query c sql; End c].
Proof.
  intros Hsql Hconn Hsrv.
  destruct q as [table fields|table fields|fun_]; simpl in *;
    [unfold Adaptor.insert | unfold Adaptor.upsert | unfold Adaptor.sqlString];
    rewrite ?Hsql, Hconn; [| |injection Hsql as <-];
    unfold Adaptor.connection_query; cbn [calls console_log set_binding];
    rewrite Hsrv; (eexists; split; [reflexivity|]); simpl;
    by rewrite <- app_assoc.
Qed.

End queries.

Lemma ends_app cs1 cs2 : ends (cs1 ++ cs2) = ends cs1 + ends cs2.
Proof.
  induction cs1 as [|[] cs1 IH]; simpl; auto.
Qed.

Lemma cleanupState_spec state w :
  ∃ w', Adaptor.cleanupState state w = (Resolved state, w')
        ∧ deref w' state = delete "connection" (deref w state)
        ∧ (∀ r, r ≠ state → store w' !! r = store w !! r)
        ∧ calls w' = calls w.
Proof.
  eexists. split; [reflexivity|]. world_simpl. split_and!.
  - rewrite lookup_total_alter_eq, (lookup_total_alt (store w)).
    destruct (store w !! state); simpl; [done|].
    symmetry. apply delete_empty.
  - intros r Hr. by rewrite lookup_alter_ne.
  - done.
Qed.

Section runs.
Context `{Libraries}.

(** Query Operations that all resolved made no call of [end]. *)
Lemma queries_resolved_calls (qs : list query_op) : ∀ s w s' w',
  commonExecute (map operation_of qs) s w = (Resolved s', w') →
  ∃ cs, calls w' = calls w ++ cs ∧ ends cs = 0.
Proof.
  induction qs as [|q qs IH]; intros s w s' w'; simpl.
  - rewrite commonExecute_nil. intros [= <- <-]. exists []. by rewrite app_nil_r.
  - rewrite commonExecute_cons. intros (s1 & w1 & Hq & Hqs)%then_inv.
    apply query_resolved in Hq
      as (sql & c & ? & ? & ? & ? & _ & _ & _ & _ & Hc & _).
    apply IH in Hqs as (cs & Hcs & Hends).
    exists (Query c sql :: cs). split; [|done].
    by rewrite Hcs, Hc, <- app_assoc.
Qed.

(** A query Operation that resolved left the connection of the State as
    it was. *)
Lemma query_keeps_connection q s w s' w' :
  operation_of q s w = (Resolved s', w') →
  deref w' s' !! "connection" = deref w s !! "connection".
Proof.
  intros (? & ? & ? & ? & ? & ? & _ & _ & _ & _ & _ & _ & _ & ->)%query_resolved.
  by rewrite lookup_insert_ne.
Qed.

End runs.

(** C2: when a query Operation of a pipeline meets an error reported by the
    driver, [connect] and the Operations before it having resolved without
    a call of [end] (query Operations that resolve make none), the run
    rejects with that very error and, over the whole run, [end] has been
    called exactly once: by the failing Operation, right after its query. *)
Theorem query_error_rejects_and_closes_once `{Libraries}
    (pre post : list Operation) (q : query_op) (state : ref) (w : World)
    (si : ref) (wi : World) (cs : list call) (sql : string) (c : loc) (e : error) :
  commonExecute (Adaptor.connect :: pre)
    (Adaptor.start state w).1 (Adaptor.start state w).2 = (Resolved si, wi) →
  calls wi = calls w ++ cs →
  ends cs = 0 →
  statement_of q (deref wi si) = inr sql →
  deref wi si !! "connection" = Some (SConn c) →
  server (calls wi) c sql = QueryError e →
  (∃ w',
     Adaptor.run (pre ++ operation_of q :: post) state w = (Rejected e, w')
     ∧ calls w' = calls w ++ cs ++ [Query c sql; End c]
     ∧ ends (cs ++ [Query c sql; End c]) = 1)
  ∧ ∀ (qs : list query_op) s0 w0 s1 w1,
      commonExecute (map operation_of qs) s0 w0 = (Resolved s1, w1) →
      ∃ cs1, calls w1 = calls w0 ++ cs1 ∧ ends cs1 = 0.
Proof.
  intros Hpre Hcs Hends Hsql Hconn Hsrv. split; [|apply queries_resolved_calls].
  destruct (query_rejected q si wi sql c e Hsql Hconn Hsrv) as (w' & Hq & Hcalls).
  exists w'. split_and!.
  - rewrite run_start, <- app_assoc. simpl.
    by apply (commonExecute_rejected (Adaptor.connect :: pre) _ _ _ _ si wi).
  - by rewrite Hcalls, Hcs, <- app_assoc.
  - by rewrite ends_app, Hends.
Qed.

Lemma commonExecute_prefix {A} (ops : list (A → M A)) state w s' w' k :
  commonExecute ops state w = (Resolved s', w') →
  ∃ sk wk, commonExecute (take k ops) state w = (Resolved sk, wk).
Proof.
  rewrite <- (take_drop k ops) at 1. rewrite commonExecute_app.
  intros (sk & wk & Hk & _)%then_inv. eauto.
Qed.

Lemma disconnect_keeps_connection state w s' w' :
  Adaptor.disconnect state w = (Resolved s', w') →
  deref w' s' !! "connection" = deref w state !! "connection".
Proof. by intros (c & _ & -> & ->)%disconnect_resolved. Qed.

(** C8, amended: in a run that succeeds, whatever the user Operations and
    the caller's State are, the State before [connect] has a connection
    exactly when the caller's State brought one, [connect] resolves to a
    State that holds the connection it has just opened, the State the user
    Operations resolve to holds a connection when [disconnect] runs, and
    the State returned after [cleanupState] holds none.  The query
    Operations and [disconnect] hand the connection on as they found it;
    when every user Operation does so, the State holds the connection
    [connect] opened after the first k Operations of the bracketed
    sequence, for every k up to the one before [cleanupState]. *)
Theorem connection_held_from_connect_to_cleanup `{Libraries}
    (operations : list Operation) (state : ref) (w : World) (r : ref) (w' : World) :
  Adaptor.run operations state w = (Resolved r, w') →
  deref (Adaptor.start state w).2 (Adaptor.start state w).1 !! "connection"
  = deref w state !! "connection"
  ∧ deref w' r !! "connection" = None
  ∧ (∀ q, keeps_connection (operation_of q))
  ∧ keeps_connection Adaptor.disconnect
  ∧ ∃ cfg s1 w1 s2 w2 c',
      Adaptor.connect (Adaptor.start state w).1 (Adaptor.start state w).2
      = (Resolved s1, w1)
      ∧ deref w1 s1 !! "connection" = Some (SConn (S (next_id w)))
      ∧ calls w1 = calls w ++ [CreateConnection (S (next_id w)) cfg;
                               Connect (S (next_id w))]
      ∧ commonExecute operations s1 w1 = (Resolved s2, w2)
      ∧ deref w2 s2 !! "connection" = Some (SConn c')
      ∧ (Forall keeps_connection operations →
         ∀ k, 1 ≤ k ≤ length operations + 2 →
           ∃ sk wk,
             commonExecute
               (take k (Adaptor.connect :: operations
                          ++ [Adaptor.disconnect; Adaptor.cleanupState]))
               (Adaptor.start state w).1 (Adaptor.start state w).2
             = (Resolved sk, wk)
             ∧ deref wk sk !! "connection" = Some (SConn (S (next_id w)))).
Proof.
  intros Hrun.
  destruct (start_spec state w) as (Hd0 & Hc0 & Hn0).
  split.
  { rewrite Hd0. destruct (deref w state !! "connection") as [v|] eqn:Hv.
    - by apply lookup_union_Some_l.
    - apply lookup_union_None. split; [done|].
      unfold Adaptor.initialState. by rewrite lookup_insert_ne, lookup_singleton_ne. }
  rewrite run_start in Hrun. pose proof Hrun as Hall.
  rewrite commonExecute_cons in Hrun.
  apply then_inv in Hrun as (s1 & w1 & Hconnect & Hrest).
  change [Adaptor.disconnect; Adaptor.cleanupState]
    with ([Adaptor.disconnect] ++ [Adaptor.cleanupState]) in Hrest.
  rewrite app_assoc, commonExecute_app in Hrest.
  apply then_inv in Hrest as (s2 & w2 & Hmid & Hclean).
  rewrite commonExecute_single in Hclean.
  pose proof (connect_resolved _ _ _ _ Hconnect) as (cfg & _ & Hd1 & _ & _ & Hc1).
  rewrite Hn0 in Hd1, Hc1. rewrite Hc0 in Hc1.
  assert (deref w1 s1 !! "connection" = Some (SConn (S (next_id w)))) as HI1.
  { rewrite Hd1. apply lookup_insert_eq. }
  split.
  { destruct (cleanupState_spec s2 w2) as (w3 & Hcl & Hd3 & _).
    rewrite Hcl in Hclean. injection Hclean as <- <-.
    rewrite Hd3. apply lookup_delete_eq. }
  split; [intros q s0 w0 s0' w0'; apply query_keeps_connection|].
  split; [intros s0 w0 s0' w0'; apply disconnect_keeps_connection|].
  rewrite commonExecute_app in Hmid.
  apply then_inv in Hmid as (sa & wa & Hops & Hdis).
  rewrite commonExecute_single in Hdis.
  pose proof (disconnect_resolved _ _ _ _ Hdis) as (c' & Hc' & _ & _).
  exists cfg, s1, w1, sa, wa, c'. split_and!; try done.
  intros Hkeep k [Hk1 Hk2].
  destruct (commonExecute_prefix _ _ _ _ _ k Hall) as (sk & wk & Hk).
  exists sk, wk. split; [done|].
  destruct k as [|k]; [lia|]. simpl in Hk.
  rewrite commonExecute_cons in Hk.
  rewrite (then_resolved _ _ _ _ _ Hconnect) in Hk.
  change [Adaptor.disconnect; Adaptor.cleanupState]
    with ([Adaptor.disconnect] ++ [Adaptor.cleanupState]) in Hk.
  rewrite app_assoc, take_app_le in Hk by (rewrite length_app; simpl; lia).
  remember (S (next_id w)) as c eqn:Ec.
  eapply (commonExecute_invariant
            (λ s0 w0, deref w0 s0 !! "connection" = Some (SConn c)));
    [|exact HI1|exact Hk].
  apply Forall_take, Forall_app. split.
  - eapply Forall_impl; [exact Hkeep|].
    intros op Hop s0 w0 s0' w0' HI Hrun. by rewrite (Hop _ _ _ _ Hrun).
  - repeat constructor. intros s0 w0 s0' w0' HI Hrun.
    by rewrite (disconnect_keeps_connection _ _ _ _ Hrun).
Qed.

Section state_objects.
Context `{Libraries}.

Lemma query_rejected_store q s w e w' :
  operation_of q s w = (Rejected e, w') → store w' = store w.
Proof.
  destruct q as [table fields|table fields|fun_]; simpl;
    [unfold Adaptor.insert; destruct (Adaptor.insert_statement _ _ _) as [e0|sql]
    |unfold Adaptor.upsert; destruct (Adaptor.upsert_statement _ _ _) as [e0|sql]
    |unfold Adaptor.sqlString];
    try (by intros [= <- <-]);
    (destruct (deref w s !! "connection") as [[d|c]|]; try (by intros [= <- <-]));
    (destruct (Adaptor.connection_query _ _ _) as [[err|[results flds']] w1] eqn:Eq;
     [apply connection_query_inl in Eq as [_ ->]; by intros [= <- <-]|]);
    try destruct (JSON_parse _ _) as [body n];
    destruct (Adaptor.nextState _ _ _) as [o w2] eqn:En;
    apply nextState_spec in En as (r & -> & _); discriminate.
Qed.

Lemma query_copies q s w : outcome_copies "response" s w (operation_of q s w).
Proof.
  destruct (operation_of q s w) as [[s'|e] w'] eqn:E; simpl.
  - apply query_resolved in E
      as (? & ? & ? & ? & ? & ? & _ & _ & _ & _ & _ & Hf & Hst & Hd).
    split_and!; [done| |].
    + intros r Hr. rewrite Hst. apply lookup_insert_ne. by intros ->.
    + intros k' Hk. rewrite Hd. by apply lookup_insert_ne.
  - by eapply query_rejected_store.
Qed.

Lemma connect_copies s w : outcome_copies "connection" s w (Adaptor.connect s w).
Proof.
  destruct (Adaptor.connect s w) as [[s'|e] w'] eqn:E; simpl.
  - apply connect_resolved in E as (cfg & _ & Hd & Hf & Hst & _).
    split_and!; [done| |].
    + intros r Hr. rewrite Hst. apply lookup_insert_ne. by intros ->.
    + intros k' Hk. rewrite Hd. by apply lookup_insert_ne.
  - unfold Adaptor.connect in E. destruct (destructure _).
    + by destruct (alloc_state _ _).
    + by injection E as _ <-.
Qed.

Lemma disconnect_same s w : outcome_same s w (Adaptor.disconnect s w).
Proof.
  unfold Adaptor.disconnect.
  by destruct (deref w s !! "connection") as [[d|c]|].
Qed.

End state_objects.

(** C9, amended: [connect] and the query Operations resolve to a new State
    object, a copy of the one received whose fields are the same but for
    [connection], respectively [response], and change no State object, also
    when they reject; [disconnect] hands back the object it received,
    unchanged; [cleanupState] hands back the object it received after
    deleting its field [connection] in place, the other fields and the
    other objects staying as they were. *)
Theorem operations_on_state_objects `{Libraries} (q : query_op) (s : ref) (w : World) :
  outcome_copies "connection" s w (Adaptor.connect s w)
  ∧ outcome_copies "response" s w (operation_of q s w)
  ∧ outcome_same s w (Adaptor.disconnect s w)
  ∧ ∃ w', Adaptor.cleanupState s w = (Resolved s, w')
          ∧ deref w' s = delete "connection" (deref w s)
          ∧ store w' = alter (delete "connection") s (store w).
Proof.
  split; [apply connect_copies|]. split; [apply query_copies|].
  split; [apply disconnect_same|].
  destruct (cleanupState_spec s w) as (w' & Hcl & Hd & _).
  exists w'. split; [done|]. split; [done|].
  by injection Hcl as <-.
Qed.

(** C10: whenever [insert] has rendered its statement, the module binding
    [sqlString] holds that text once the Operation has run, whatever the
    outcome of the query, and no longer the exported function: a call of
    [sqlString] through the binding then throws. *)
Theorem insert_overwrites_sqlString_binding `{Libraries}
    (table : string) (fields : Fields) (state : ref) (w : World) (sql : string) :
  Adaptor.insert_statement table fields (deref w state) = inr sql →
  sqlString_binding (Adaptor.insert table fields state w).2 = BString sql
  ∧ sqlString_binding (Adaptor.insert table fields state w).2 ≠ BFunction
  ∧ ∀ fun_,
      Adaptor.call_sqlString fun_ (Adaptor.insert table fields state w).2
      = inl (TypeError "sqlString is not a function").
Proof.
  intros Hsql. unfold Adaptor.call_sqlString.
  assert (sqlString_binding (Adaptor.insert table fields state w).2 = BString sql)
    as ->; [|done].
  unfold Adaptor.insert. rewrite Hsql.
  destruct (deref w state !! "connection") as [[d|c]|]; try done.
  destruct (Adaptor.connection_query _ _ _) as [[err|[results flds']] w1] eqn:Eq.
  - by apply connection_query_inl in Eq as [_ ->].
  - apply connection_query_inr in Eq as (res & flds & _ & _ & _ & _ & _ & Hb).
    destruct (Adaptor.nextState _ _ _) as [o w2] eqn:En.
    apply nextState_spec in En as (r & _ & _ & _ & _ & _ & Hb2).
    simpl. by rewrite Hb2.
Qed.

(** [insert] whose statement is rendered, run with a connection against a
    database that answers with results. *)
Lemma insert_resolved_with `{Libraries}
    (table : string) (fields : Fields) (state : ref) (w : World)
    (c : loc) (sql : string) (res : tree) (flds : option tree) :
  Adaptor.insert_statement table fields (deref w state) = inr sql →
  deref w state !! "connection" = Some (SConn c) →
  server (calls w) c sql = QueryOk res flds →
  ∃ s' w' bid valuesObj text values,
    Adaptor.insert table fields state w = (Resolved s', w')
    ∧ deref w' s'
      = <["response" := SData (DObj bid [("body", Adaptor.driver_result res w)])]>
          (deref w state)
    ∧ content (Adaptor.driver_result res w) = res
    ∧ calls w' = calls w ++ [Query c sql]
    ∧ expandReferences fields (deref w state) = inr valuesObj
    ∧ squel_insert table valuesObj = inr (text, values)
    ∧ sql = mysql_format text values.
Proof.
  intros Hsql Hconn Hsrv.
  assert (∃ valuesObj text values,
            expandReferences fields (deref w state) = inr valuesObj
            ∧ squel_insert table valuesObj = inr (text, values)
            ∧ sql = mysql_format text values) as (valuesObj & text & values & Hv).
  { unfold Adaptor.insert_statement in Hsql.
    destruct (expandReferences _ _) as [e|valuesObj] eqn:E1; [discriminate|].
    destruct (squel_insert _ _) as [e|[text values]] eqn:E2; [discriminate|].
    injection Hsql as <-. by exists valuesObj, text, values. }
  unfold Adaptor.insert, Adaptor.driver_result. rewrite Hsql, Hconn.
  unfold Adaptor.connection_query. world_simpl. rewrite Hsrv.
  destruct (build res (next_id w)) as [results n1] eqn:Eb.
  set (alloc_fields := match flds with
                       | Some f => let '(d, n) := build f n1 in (Some d, n)
                       | None => (None, n1)
                       end).
  destruct alloc_fields as [fields' n2]. unfold Adaptor.nextState. world_simpl.
  destruct (alloc_state _ _) as [r w2] eqn:Ea.
  apply alloc_state_spec in Ea as (_ & _ & Hd & Hcalls & _).
  exists r, w2, n2, valuesObj, text, values. split_and!; try done; try tauto.
  pose proof (build_built res (next_id w)) as (_ & Hc & _). by rewrite Eb in Hc.
Qed.

(** C7, amended: [sqlString(fun_)] sends the text [fun_(state)] as it is
    and, when the driver answers with results, resolves to a copy of the
    State whose [response.body] has the JSON normalisation of the content
    of the result object (a Date has become its ISO string), is deep-equal
    to the result object when the results are plain JSON data, and is made
    of new objects only, none of them shared with the result object. *)
Theorem sqlString_round_trip `{Libraries}
    (fun_ : gmap string sval → string) (s : ref) (w : World)
    (c : loc) (res : tree) (flds : option tree) :
  deref w s !! "connection" = Some (SConn c) →
  server (calls w) c (fun_ (deref w s)) = QueryOk res flds →
  ∃ s' w' bid body,
    Adaptor.sqlString fun_ s w = (Resolved s', w')
    ∧ calls w' = calls w ++ [Query c (fun_ (deref w s))]
    ∧ deref w' s' = <["response" := SData (DObj bid [("body", body)])]> (deref w s)
    ∧ content body = to_json (content (Adaptor.driver_result res w))
    ∧ (plain res → faithful_copy body (Adaptor.driver_result res w))
    ∧ (∀ i, i ∈ ids body → i ∉ ids (Adaptor.driver_result res w)).
Proof.
  intros Hconn Hsrv.
  unfold Adaptor.sqlString, Adaptor.driver_result. rewrite Hconn.
  unfold Adaptor.connection_query. world_simpl. rewrite Hsrv.
  pose proof (build_built res (next_id w)) as (Hle & Hc & Hi).
  destruct (build res (next_id w)) as [results n1] eqn:Eb. simpl in Hle, Hc, Hi.
  assert (∃ fields' n2, n1 ≤ n2 ∧
            match flds with
            | Some f => let '(d, n) := build f n1 in (Some d, n)
            | None => (None, n1)
            end = (fields', n2)) as (fields' & n2 & Hn2 & ->).
  { destruct flds as [f|]; [|by eauto].
    pose proof (build_built f n1) as (Hle' & _).
    destruct (build f n1) as [d n]. simpl in Hle'. eauto. }
  world_simpl.
  pose proof (JSON_round_trip results n2) as (Hcb & Hib & _).
  destruct (JSON_parse (JSON_stringify results) n2) as [body n] eqn:Ep.
  simpl in Hcb, Hib. unfold Adaptor.nextState. world_simpl.
  destruct (alloc_state _ _) as [r w2] eqn:Ea.
  apply alloc_state_spec in Ea as (_ & _ & Hd & Hcalls & _).
  assert (∀ i, i ∈ ids body → i ∉ ids results) as Hfresh.
  { intros i Hb Hr.
    rewrite Forall_forall in Hib, Hi.
    specialize (Hib i Hb). specialize (Hi i Hr). lia. }
  exists r, w2, n, body. simpl. split_and!; try done.
  - intros Hp. split; [|done]. unfold deep_equal.
    by rewrite Hcb, Hc, to_json_plain.
Qed.

(** ** Texts *)

Lemma append_cons a s t : String a s +:+ t = String a (s +:+ t).
Proof. reflexivity. Qed.

Lemma append_empty t : EmptyString +:+ t = t.
Proof. reflexivity. Qed.

Lemma append_assoc s t u : (s +:+ t) +:+ u = s +:+ t +:+ u.
Proof.
  induction s as [|a s IH]; [done|]. by rewrite !append_cons, IH.
Qed.

Lemma length_append s t : String.length (s +:+ t) = String.length s + String.length t.
Proof.
  induction s as [|a s IH]; [done|]. rewrite append_cons. simpl. by rewrite IH.
Qed.

Lemma prefix_append p t : String.prefix p (p +:+ t) = true.
Proof.
  induction p as [|a p IH]; [by destruct t|].
  rewrite append_cons. simpl. by destruct (ascii_dec a a).
Qed.

(** Whether [p] starts a text is decided by the first [length p]
    characters of the text. *)
Lemma prefix_append_long p : ∀ s t,
  String.length p ≤ String.length s →
  String.prefix p (s +:+ t) = String.prefix p s.
Proof.
  induction p as [|a p IH]; intros s t Hlen.
  - by destruct (s +:+ t); destruct s.
  - destruct s as [|b s]; simpl in Hlen; [lia|].
    rewrite append_cons. simpl. destruct (ascii_dec a b); [|done].
    apply IH. lia.
Qed.

Lemma prefix_short p : ∀ s,
  String.length s < String.length p → String.prefix p s = false.
Proof.
  induction p as [|a p IH]; intros s Hlen; simpl in Hlen; [lia|].
  destruct s as [|b s]; [done|]. simpl in *.
  destruct (ascii_dec a b); [|done]. apply IH. lia.
Qed.

Lemma occurrences_short p s :
  String.length s < String.length p → occurrences p s = 0.
Proof.
  induction s as [|a s IH]; intros Hlen; cbn [occurrences].
  - by rewrite prefix_short.
  - rewrite prefix_short by done. simpl in *. apply IH. lia.
Qed.

Lemma but_last_snoc p :
  p ≠ EmptyString →
  ∃ a, p = but_last p +:+ String a EmptyString
       ∧ String.length p = S (String.length (but_last p)).
Proof.
  induction p as [|a p IH]; [done|]. intros _.
  destruct p as [|b p].
  - by exists a.
  - destruct IH as (z & Hz & Hl); [done|]. exists z.
    change (but_last (String a (String b p))) with (String a (but_last (String b p))).
    rewrite append_cons, <- Hz. split; [done|]. simpl in *. by rewrite Hl.
Qed.

(** The occurrences of [p] in a text around one [p]: those that start
    before it, itself, and those that start after its first character. *)
Lemma occurrences_around p s t :
  p ≠ EmptyString →
  occurrences p (s +:+ p +:+ t)
  = occurrences p (s +:+ but_last p) + 1 + occurrences p (tail p +:+ t).
Proof.
  intros Hp. destruct (but_last_snoc p Hp) as (z & Hz & Hl).
  induction s as [|a s IH].
  - rewrite !append_empty, (occurrences_short p (but_last p)) by lia.
    destruct p as [|b p]; [done|]. rewrite append_cons.
    cbn [occurrences tail]. rewrite <- append_cons, prefix_append. done.
  - rewrite !append_cons. cbn [occurrences]. rewrite IH.
    rewrite <- !append_cons.
    assert (String.prefix p (String a s +:+ p +:+ t)
            = String.prefix p (String a s +:+ but_last p)) as ->; [|lia].
    rewrite Hz at 2. rewrite append_assoc, <- (append_assoc (String a s)).
    apply prefix_append_long. rewrite length_append. simpl. lia.
Qed.

Lemma queries_app cs1 cs2 : queries (cs1 ++ cs2) = queries cs1 ++ queries cs2.
Proof.
  induction cs1 as [|[] cs1 IH]; simpl; by rewrite ?IH.
Qed.

(** The statement of [upsert] in terms of what the libraries render. *)
Lemma upsert_statement_parts `{Libraries}
    (table : string) (fields : Fields) (s : ref) (w : World) (c : loc)
    (valuesObj : tree) (itext utext : string) (ivalues uvalues : list tree) :
  expandReferences fields (deref w s) = inr valuesObj →
  squel_insert table valuesObj = inr (itext, ivalues) →
  squel_update EmptyString valuesObj = inr (utext, uvalues) →
  deref w s !! "connection" = Some (SConn c) →
  let insertString := mysql_format itext ivalues in
  let assignments := slice 10 (mysql_format utext uvalues) in
  let statement := insertString +:+ Adaptor.ON_DUPLICATE_KEY_UPDATE +:+ assignments in
  Adaptor.upsert_statement table fields (deref w s) = inr statement
  ∧ queries (calls (Adaptor.upsert table fields s w).2) = queries (calls w) ++ [statement]
  ∧ (occurrences Adaptor.ON_DUPLICATE_KEY_UPDATE
       (insertString +:+ but_last Adaptor.ON_DUPLICATE_KEY_UPDATE) = 0 →
     occurrences Adaptor.ON_DUPLICATE_KEY_UPDATE
       (tail Adaptor.ON_DUPLICATE_KEY_UPDATE +:+ assignments) = 0 →
     occurrences Adaptor.ON_DUPLICATE_KEY_UPDATE statement = 1)
  ∧ (∀ sets, mysql_format utext uvalues = "UPDATE SET " +:+ sets →
       assignments = " " +:+ sets).
Proof.
  intros Hvalues Hinsert Hupdate Hconn insertString assignments statement.
  assert (Adaptor.upsert_statement table fields (deref w s) = inr statement) as Hst.
  { unfold Adaptor.upsert_statement. by rewrite Hvalues, Hinsert, Hupdate. }
  split; [done|]. split; [|split].
  - unfold Adaptor.upsert. rewrite Hst, Hconn.
    destruct (Adaptor.connection_query _ _ _) as [[err|[results flds']] w1] eqn:Eq.
    + apply connection_query_inl in Eq as [_ ->]. world_simpl.
      by rewrite <- app_assoc, queries_app.
    + apply connection_query_inr in Eq as (res & flds & _ & _ & _ & _ & Hcalls & _).
      destruct (Adaptor.nextState _ _ _) as [o w2] eqn:En.
      apply nextState_spec in En as (r & _ & _ & _ & _ & Hcalls2 & _).
      world_simpl. by rewrite Hcalls2, Hcalls, queries_app.
  - intros Hbefore Hafter. unfold statement.
    rewrite occurrences_around, Hbefore, Hafter; done.
  - intros sets Hsets. unfold assignments. by rewrite Hsets.
Qed.

(** ** What the stand-ins of the query builder and of [format] render *)

Lemma has_placeholder_append s t :
  has_placeholder (s +:+ t) = has_placeholder s || has_placeholder t.
Proof.
  induction s as [|a s IH]; [by rewrite append_empty|].
  rewrite append_cons. simpl. by rewrite IH, orb_assoc.
Qed.

Lemma format_plain s : ∀ t vs,
  has_placeholder s = false →
  Reference.format (s +:+ t) vs = s +:+ Reference.format t vs.
Proof.
  induction s as [|a s IH]; intros t vs Hs; [by rewrite !append_empty|].
  rewrite !append_cons. simpl in *.
  apply orb_false_iff in Hs as [Ha Hs]. apply bool_decide_eq_false in Ha.
  destruct (decide (a = "?"%char)); [done|]. by rewrite IH.
Qed.

Lemma format_placeholder t v vs :
  Reference.format ("?" +:+ t) (v :: vs)
  = Reference.escape v +:+ Reference.format t vs.
Proof. rewrite append_cons, append_empty. reflexivity. Qed.

Lemma append_empty_r s : s +:+ EmptyString = s.
Proof. induction s as [|a s IH]; [done|]. by rewrite append_cons, IH. Qed.

Lemma format_no_values s : Reference.format s [] = s.
Proof.
  induction s as [|a s IH]; [done|]. simpl. rewrite IH. by destruct (decide _).
Qed.

Lemma quote_name_plain k :
  has_placeholder k = false → has_placeholder (Reference.quote_name k) = false.
Proof.
  intros Hk. unfold Reference.quote_name.
  by rewrite !has_placeholder_append, Hk.
Qed.

Lemma has_placeholder_names (ts : list (string * tree)) :
  forallb (λ kv, negb (has_placeholder kv.1)) ts = true →
  has_placeholder
    (foldr (λ y acc, ", " +:+ y +:+ acc) EmptyString
       (map (λ kv, Reference.quote_name kv.1) ts)) = false.
Proof.
  induction ts as [|[k v] ts IH]; [done|]. cbn [foldr map forallb fst].
  intros [Hk Hts]%andb_true_iff. apply negb_true_iff in Hk.
  by rewrite !has_placeholder_append, (quote_name_plain k Hk), IH.
Qed.

Lemma format_values (ts : list (string * tree)) : ∀ suffix rest,
  Reference.format
    (foldr (λ y acc, ", " +:+ y +:+ acc) EmptyString
       (map (λ _ : string * tree, "?") ts) +:+ suffix)
    (map snd ts ++ rest)
  = foldr (λ y acc, ", " +:+ y +:+ acc) EmptyString
      (map (λ kv, Reference.escape kv.2) ts)
    +:+ Reference.format suffix rest.
Proof.
  induction ts as [|[k v] ts IH]; intros suffix rest;
    cbn [foldr map fst snd app].
  - by rewrite !append_empty.
  - rewrite !append_assoc, format_plain by reflexivity.
    by rewrite format_placeholder, IH.
Qed.

Lemma format_assignments (ts : list (string * tree)) : ∀ suffix rest,
  forallb (λ kv, negb (has_placeholder kv.1)) ts = true →
  Reference.format
    (foldr (λ y acc, ", " +:+ y +:+ acc) EmptyString
       (map (λ kv : string * tree, Reference.quote_name kv.1 +:+ " = ?") ts)
     +:+ suffix)
    (map snd ts ++ rest)
  = foldr (λ y acc, ", " +:+ y +:+ acc) EmptyString
      (map (λ kv, Reference.quote_name kv.1 +:+ " = " +:+ Reference.escape kv.2) ts)
    +:+ Reference.format suffix rest.
Proof.
  induction ts as [|[k v] ts IH]; intros suffix rest;
    cbn [foldr map forallb fst snd app].
  - by rewrite !append_empty.
  - intros [Hk Hts]%andb_true_iff. apply negb_true_iff in Hk.
    change " = ?" with (" = " +:+ "?").
    rewrite !append_assoc, format_plain by reflexivity.
    rewrite format_plain by by apply quote_name_plain.
    rewrite format_plain by reflexivity.
    by rewrite format_placeholder, IH.
Qed.

(** What the stand-ins render for an INSERT of the columns [ts]. *)
Lemma insert_rendering (table : string) (ts : list (string * tree)) :
  forallb (λ kv, Reference.scalar kv.2) ts = true →
  has_placeholder table = false →
  forallb (λ kv, negb (has_placeholder kv.1)) ts = true →
  ∃ text values,
    Reference.insert_toParam table (TObj ts) = inr (text, values)
    ∧ Reference.format text values = single_row_insert table ts.
Proof.
  intros Hscalar Htable Hnames. unfold Reference.insert_toParam.
  rewrite Hscalar. eexists _, _. split; [reflexivity|].
  unfold single_row_insert.
  rewrite format_plain by reflexivity.
  rewrite format_plain by done.
  destruct ts as [|[k v] ts]; [done|]. cbn [Reference.join foldr map forallb fst snd app] in Hnames |- *.
  apply andb_true_iff in Hnames as [Hk Hts]. apply negb_true_iff in Hk.
  rewrite format_plain by reflexivity.
  rewrite ?append_assoc.
  rewrite format_plain by by apply quote_name_plain.
  rewrite format_plain by by apply has_placeholder_names.
  rewrite format_plain by reflexivity.
  rewrite format_placeholder.
  by rewrite <- (app_nil_r (map snd ts)), format_values, format_no_values.
Qed.

(** What they render for the UPDATE without a table of the same columns. *)
Lemma update_rendering (ts : list (string * tree)) :
  ts ≠ [] →
  forallb (λ kv, Reference.scalar kv.2) ts = true →
  forallb (λ kv, negb (has_placeholder kv.1)) ts = true →
  ∃ text values,
    Reference.update_toParam EmptyString (TObj ts) = inr (text, values)
    ∧ Reference.format text values = "UPDATE SET " +:+ assignment_list ts.
Proof.
  intros Hne Hscalar Hnames. unfold Reference.update_toParam.
  rewrite Hscalar. destruct ts as [|[k v] ts]; [done|].
  eexists _, _. split; [reflexivity|].
  unfold assignment_list. cbn [Reference.join foldr map forallb fst snd app] in Hnames |- *.
  apply andb_true_iff in Hnames as [Hk Hts]. apply negb_true_iff in Hk.
  rewrite append_empty.
  change " = ?" with (" = " +:+ "?").
  rewrite format_plain by reflexivity.
  rewrite format_plain by reflexivity.
  rewrite !append_assoc.
  rewrite format_plain by by apply quote_name_plain.
  rewrite format_plain by reflexivity.
  rewrite format_placeholder.
  pose proof (format_assignments ts EmptyString [] Hts) as Hrest.
  rewrite append_empty_r, app_nil_r in Hrest.
  change (" = " +:+ "?") with " = ?". rewrite Hrest.
  by rewrite append_empty_r.
Qed.

(** C6, amended: with a query builder and a [format] that render as
    modelled, for a table name and field names that hold no [?] and values
    the builder accepts, the statement of [insert] is the single-row INSERT
    into the table of the fields as they resolve against the State, names
    quoted and values escaped; when the driver runs it with success, the
    Operation has sent that one statement and resolves to a copy of the
    State whose [response] is a new object with the result object of the
    driver as its [body]. *)
Theorem insert_renders_resolved_fields `{Libraries}
    (table : string) (fields : Fields) (state : ref) (w : World)
    (c : loc) (ts : list (string * tree)) (res : tree) (flds : option tree) :
  renders_as_modelled →
  expandReferences fields (deref w state) = inr (TObj ts) →
  forallb (λ kv, Reference.scalar kv.2) ts = true →
  has_placeholder table = false →
  forallb (λ kv, negb (has_placeholder kv.1)) ts = true →
  deref w state !! "connection" = Some (SConn c) →
  server (calls w) c (single_row_insert table ts) = QueryOk res flds →
  Adaptor.insert_statement table fields (deref w state)
  = inr (single_row_insert table ts)
  ∧ ∃ s' w' bid,
      Adaptor.insert table fields state w = (Resolved s', w')
      ∧ deref w' s'
        = <["response" := SData (DObj bid [("body", Adaptor.driver_result res w)])]>
            (deref w state)
      ∧ content (Adaptor.driver_result res w) = res
      ∧ calls w' = calls w ++ [Query c (single_row_insert table ts)].
Proof.
  intros (Hinsert & _ & Hformat) Hts Hscalar Htable Hnames Hconn Hsrv.
  destruct (insert_rendering table ts Hscalar Htable Hnames)
    as (text & values & Htext & Hsql).
  assert (Adaptor.insert_statement table fields (deref w state)
          = inr (single_row_insert table ts)) as Hst.
  { unfold Adaptor.insert_statement. by rewrite Hts, Hinsert, Htext, Hformat, Hsql. }
  split; [done|].
  destruct (insert_resolved_with table fields state w c _ res flds
              Hst Hconn Hsrv)
    as (s' & w' & bid & _ & _ & _ & Hrun & Hd & Hc & Hcalls & _).
  by exists s', w', bid.
Qed.

(** C1, amended: with a query builder and a [format] that render as
    modelled, for a table name and field names that hold no [?] and at
    least one field, all values accepted by the builder, the statement of
    [upsert] is the single-row INSERT of the resolved fields, the keyword
    ON DUPLICATE KEY UPDATE, and an assignment list that gives the same
    fields the same values in the same order; the list is the rendered
    statement [UPDATE SET ...] less its first 10 characters, which leave a
    space in front; the Operation sends this one statement; and the keyword
    occurs in it once more often than the INSERT clause and the assignment
    list bring occurrences of their own: exactly once when they bring
    none. *)
Theorem upsert_renders_insert_and_assignments `{Libraries}
    (table : string) (fields : Fields) (s : ref) (w : World) (c : loc)
    (ts : list (string * tree)) :
  renders_as_modelled →
  expandReferences fields (deref w s) = inr (TObj ts) →
  ts ≠ [] →
  forallb (λ kv, Reference.scalar kv.2) ts = true →
  has_placeholder table = false →
  forallb (λ kv, negb (has_placeholder kv.1)) ts = true →
  deref w s !! "connection" = Some (SConn c) →
  Adaptor.insert_statement table fields (deref w s)
  = inr (single_row_insert table ts)
  ∧ (∃ utext uvalues,
       squel_update EmptyString (TObj ts) = inr (utext, uvalues)
       ∧ mysql_format utext uvalues = "UPDATE SET " +:+ assignment_list ts
       ∧ slice 10 (mysql_format utext uvalues) = " " +:+ assignment_list ts)
  ∧ Adaptor.upsert_statement table fields (deref w s) = inr (upsert_of table ts)
  ∧ queries (calls (Adaptor.upsert table fields s w).2)
    = queries (calls w) ++ [upsert_of table ts]
  ∧ occurrences Adaptor.ON_DUPLICATE_KEY_UPDATE (upsert_of table ts)
    = occurrences Adaptor.ON_DUPLICATE_KEY_UPDATE
        (single_row_insert table ts +:+ but_last Adaptor.ON_DUPLICATE_KEY_UPDATE)
      + 1
      + occurrences Adaptor.ON_DUPLICATE_KEY_UPDATE
          (tail Adaptor.ON_DUPLICATE_KEY_UPDATE +:+ " " +:+ assignment_list ts).
Proof.
  intros (Hinsert & Hupdate & Hformat) Hts Hne Hscalar Htable Hnames Hconn.
  destruct (insert_rendering table ts Hscalar Htable Hnames)
    as (itext & ivalues & Hitext & Hisql).
  destruct (update_rendering ts Hne Hscalar Hnames)
    as (utext & uvalues & Hutext & Husql).
  rewrite <- Hinsert in Hitext. rewrite <- Hupdate in Hutext.
  rewrite <- Hformat in Hisql, Husql.
  destruct (upsert_statement_parts table fields s w c (TObj ts)
              itext utext ivalues uvalues Hts Hitext Hutext Hconn)
    as (Hst & Hsent & _).
  rewrite Hisql, Husql in Hst, Hsent.
  split_and!.
  - unfold Adaptor.insert_statement. by rewrite Hts, Hitext, Hisql.
  - exists utext, uvalues. by rewrite Husql.
  - exact Hst.
  - exact Hsent.
  - by apply occurrences_around.
Qed.

(** * The theorems at work on the stand-in libraries *)

Example slice_leaves_a_space : slice 10 "UPDATE SET `a` = 1" = " `a` = 1".
Proof. reflexivity. Qed.

Example occurrences_overlapping : occurrences "aa" "aaa" = 2.
Proof. reflexivity. Qed.

Example JSON_round_trip_of_a_date :
  JSON_parse (JSON_stringify (DArr 0 [DDate 1 "2020-01-01T00:00:00.000Z"])) 5
  = (DArr 5 [DStr "2020-01-01T00:00:00.000Z"], 6).
Proof. reflexivity. Qed.

Example insert_statement_of_fields1 :
  Adaptor.insert_statement (H:=Reference.libs) "t" Reference.fields1 Reference.state0
  = inr "INSERT INTO t (`a`, `b`) VALUES (1, 'x')".
Proof. vm_compute. reflexivity. Qed.

(** C1, the claim at a table name that holds a [?], at a value that holds
    the words of the keyword, and at no field at all: the INSERT clause
    inserts other values than the list assigns; the keyword stands three
    times; no statement is built. *)
Lemma upsert_insert_clause_differs_from_assignments :
  ¬ renders_upsert_of_fields (H:=Reference.libs) "t?" Cases.two_numbers
      Reference.state0
  ∧ Adaptor.upsert_statement (H:=Reference.libs) "t?" Cases.two_numbers
      Reference.state0
    = inr "INSERT INTO t1 (`a`, `b`) VALUES (2, ?) ON DUPLICATE KEY UPDATE  `a` = 1, `b` = 2"
  ∧ ¬ renders_upsert_of_fields (H:=Reference.libs) "t" Cases.the_keyword
        Reference.state0
  ∧ (∃ sql, Adaptor.upsert_statement (H:=Reference.libs) "t" Cases.the_keyword
              Reference.state0 = inr sql
            ∧ occurrences Adaptor.ON_DUPLICATE_KEY_UPDATE sql = 3)
  ∧ ¬ renders_upsert_of_fields (H:=Reference.libs) "t" [] Reference.state0
  ∧ Adaptor.upsert_statement (H:=Reference.libs) "t" [] Reference.state0
    = inl (Exception "set() needs to be called").
Proof.
  split_and!.
  - intros (ts & Hts & Hst & _). vm_compute in Hts. injection Hts as <-.
    vm_compute in Hst. discriminate.
  - vm_compute. reflexivity.
  - intros (ts & Hts & _ & Honce). vm_compute in Hts. injection Hts as <-.
    vm_compute in Honce. discriminate.
  - eexists. split; vm_compute; reflexivity.
  - intros (ts & Hts & Hst & _). vm_compute in Hts. injection Hts as <-.
    vm_compute in Hst. discriminate.
  - vm_compute. reflexivity.
Qed.

(** C1, amended, at [upsert("t", {a: 1, b: dataValue("name")})]. *)
Lemma upsert_renders_insert_and_assignments_witness :
  Adaptor.upsert_statement (H:=Reference.libs) "t" Reference.fields1
    (deref Reference.world1 Reference.state1)
  = inr ("INSERT INTO t (`a`, `b`) VALUES (1, 'x')" +:+
         " ON DUPLICATE KEY UPDATE " +:+ " `a` = 1, `b` = 'x'")
  ∧ occurrences " ON DUPLICATE KEY UPDATE "
      ("INSERT INTO t (`a`, `b`) VALUES (1, 'x')" +:+
       " ON DUPLICATE KEY UPDATE " +:+ " `a` = 1, `b` = 'x'") = 1.
Proof.
  destruct (upsert_renders_insert_and_assignments (H:=Reference.libs)
              "t" Reference.fields1 Reference.state1 Reference.world1 2
              [("a", TNum 1); ("b", TStr "x")])
    as (_ & _ & Hstatement & _ & Hcount);
    [repeat split | vm_compute; reflexivity | discriminate
    | vm_compute; reflexivity ..|].
  split; [exact Hstatement|].
  etransitivity; [exact Hcount|]. vm_compute. reflexivity.
Defined.

(** C2 at a pipeline whose second statement the database refuses. *)
Lemma query_error_rejects_and_closes_once_witness :
  ∃ w',
    Adaptor.run
      (map (operation_of (H:=Reference.libs))
         [Reference.select1; Reference.selec; Reference.insert1])
      1%positive Reference.world0
    = (Rejected (Exception "ER_PARSE_ERROR"), w')
    ∧ queries (calls w') = ["SELECT 1"; "SELEC"]
    ∧ ends (calls w') = 1.
Proof.
  destruct (query_error_rejects_and_closes_once (H:=Reference.libs)
              [operation_of Reference.select1] [operation_of Reference.insert1]
              Reference.selec 1%positive Reference.world0 4%positive
              (commonExecute
                 [Adaptor.connect; operation_of Reference.select1]
                 (Adaptor.start 1%positive Reference.world0).1
                 (Adaptor.start 1%positive Reference.world0).2).2
              [CreateConnection 3
                 (mkConfig (Some (DStr "localhost")) (Some (DStr "u"))
                    (Some (DStr "p")) (Some (DStr "shop")) (Some (DNum 3306)));
               Connect 3; Query 3 "SELECT 1"]
              "SELEC" 3 (Exception "ER_PARSE_ERROR"))
    as [(w' & Hrun & Hcalls & _) _]; [vm_compute; reflexivity ..|].
  exists w'. split; [exact Hrun|]. rewrite Hcalls. split; reflexivity.
Defined.

(** C3 at a pipeline of one [insert]. *)
Lemma execute_runs_bracketed_sequence_witness :
  ∃ s1 w1 s2 w2 w3,
    Adaptor.connect (Adaptor.start 1%positive Reference.world0).1
      (Adaptor.start 1%positive Reference.world0).2 = (Resolved s1, w1)
    ∧ Adaptor.insert (H:=Reference.libs) "t" Reference.fields1 s1 w1 = (Resolved s2, w2)
    ∧ Adaptor.disconnect s2 w2 = (Resolved s2, w3)
    ∧ Adaptor.cleanupState s2 w3
      = Adaptor.run [Adaptor.insert (H:=Reference.libs) "t" Reference.fields1]
          1%positive Reference.world0.
Proof.
  destruct (execute_runs_bracketed_sequence
              [Adaptor.insert (H:=Reference.libs) "t" Reference.fields1]
              1%positive Reference.world0 4%positive
              (Adaptor.run [Adaptor.insert (H:=Reference.libs) "t" Reference.fields1]
                 1%positive Reference.world0).2)
    as (s1 & w1 & s2 & w2 & w3 & Hconnect & Hops & Hdis & Hclean & _);
    [vm_compute; reflexivity|].
  exists s1, w1, s2, w2, w3. rewrite commonExecute_single in Hops.
  split; [exact Hconnect|]. split; [exact Hops|]. split; [exact Hdis|].
  rewrite Hclean. vm_compute. reflexivity.
Defined.

(** C4 at a pipeline whose first statement the database refuses. *)
Lemma rejection_aborts_run_witness :
  Adaptor.run
    [Adaptor.sqlString (H:=Reference.libs) Reference.SELEC;
     Adaptor.insert (H:=Reference.libs) "t" Reference.fields1]
    1%positive Reference.world0
  = (Rejected (Exception "ER_PARSE_ERROR"),
     (Adaptor.sqlString (H:=Reference.libs) Reference.SELEC 3%positive
        (Adaptor.connect (Adaptor.start 1%positive Reference.world0).1
           (Adaptor.start 1%positive Reference.world0).2).2).2).
Proof.
  apply (rejection_aborts_run
           [Adaptor.sqlString (H:=Reference.libs) Reference.SELEC;
            Adaptor.insert (H:=Reference.libs) "t" Reference.fields1]
           [Adaptor.connect]
           [Adaptor.insert (H:=Reference.libs) "t" Reference.fields1;
            Adaptor.disconnect; Adaptor.cleanupState]
           (Adaptor.sqlString (H:=Reference.libs) Reference.SELEC)
           1%positive Reference.world0 3%positive
           (Adaptor.connect (Adaptor.start 1%positive Reference.world0).1
              (Adaptor.start 1%positive Reference.world0).2).2
           (Exception "ER_PARSE_ERROR")
           (Adaptor.sqlString (H:=Reference.libs) Reference.SELEC 3%positive
              (Adaptor.connect (Adaptor.start 1%positive Reference.world0).1
                 (Adaptor.start 1%positive Reference.world0).2).2).2);
    [reflexivity | vm_compute; reflexivity ..].
Defined.

(** C6, the claim at a table name that holds a [?]: the first value has
    gone into the table name and the VALUES list is one value short. *)
Lemma insert_placeholder_in_table_name :
  ¬ renders_insert_of_fields (H:=Reference.libs) "t?" Cases.two_numbers
      Reference.state0
  ∧ Adaptor.insert_statement (H:=Reference.libs) "t?" Cases.two_numbers
      Reference.state0
    = inr "INSERT INTO t1 (`a`, `b`) VALUES (2, ?)".
Proof.
  split.
  - intros (ts & Hts & Hst). vm_compute in Hts. injection Hts as <-.
    vm_compute in Hst. discriminate.
  - vm_compute. reflexivity.
Qed.

(** C6, amended, at [insert("t", {a: 1, b: dataValue("name")})]. *)
Lemma insert_renders_resolved_fields_witness :
  Adaptor.insert_statement (H:=Reference.libs) "t" Reference.fields1
    (deref Reference.world1 Reference.state1)
  = inr "INSERT INTO t (`a`, `b`) VALUES (1, 'x')"
  ∧ ∃ s' w' bid,
      Adaptor.insert (H:=Reference.libs) "t" Reference.fields1
        Reference.state1 Reference.world1 = (Resolved s', w')
      ∧ deref w' s' !! "response"
        = Some (SData (DObj bid
                  [("body", DObj 3 [("affectedRows", DNum 1); ("insertId", DNum 7)])]))
      ∧ calls w'
        = calls Reference.world1 ++ [Query 2 "INSERT INTO t (`a`, `b`) VALUES (1, 'x')"].
Proof.
  destruct (insert_renders_resolved_fields (H:=Reference.libs)
              "t" Reference.fields1 Reference.state1 Reference.world1 2
              [("a", TNum 1); ("b", TStr "x")] Reference.OkPacket None)
    as (Hstatement & s' & w' & bid & Hrun & Hd & _ & Hcalls);
    [repeat split | vm_compute; reflexivity ..|].
  split; [exact Hstatement|].
  exists s', w', bid. split; [exact Hrun|]. split; [|exact Hcalls].
  rewrite Hd. apply lookup_insert_eq.
Defined.

(** C7, the claim at a statement that selects a date: the body holds the
    text of the date where the result of the driver holds the date. *)
Lemma sqlString_date_is_not_deep_equal :
  ¬ resolves_with_faithful_copy (H:=Reference.libs)
      Reference.SELECT_NOW Reference.state1 Reference.world1.
Proof.
  intros Hclaim.
  destruct (Hclaim 2 (TArr [TObj [("t", TDate "2020-01-01T00:00:00.000Z")]]) None)
    as (s' & w' & bid & body & Hrun & Hresponse & [Hdeep _]);
    [vm_compute; reflexivity ..|].
  vm_compute in Hrun. injection Hrun as <- <-.
  vm_compute in Hresponse. injection Hresponse as <- <-.
  vm_compute in Hdeep. discriminate.
Qed.

(** C7, amended, at [sqlString(() => "SELECT 1")] with the driver
    returning [[{1: 1}]]. *)
Lemma sqlString_round_trip_witness :
  ∃ s' w' bid body,
    Adaptor.sqlString (H:=Reference.libs) Reference.SELECT_1
      Reference.state1 Reference.world1 = (Resolved s', w')
    ∧ deref w' s' !! "response" = Some (SData (DObj bid [("body", body)]))
    ∧ content body = TArr [TObj [("1", TNum 1)]]
    ∧ faithful_copy body (DArr 3 [DObj 4 [("1", DNum 1)]]).
Proof.
  destruct (sqlString_round_trip (H:=Reference.libs) Reference.SELECT_1
              Reference.state1 Reference.world1 2
              (TArr [TObj [("1", TNum 1)]])
              (Some (TArr [TObj [("name", TStr "1")]])))
    as (s' & w' & bid & body & Hrun & _ & Hd & Hc & Hplain & _);
    [vm_compute; reflexivity ..|].
  exists s', w', bid, body. split; [exact Hrun|]. split; [|split; [exact Hc|]].
  - rewrite Hd. apply lookup_insert_eq.
  - apply Hplain. simpl. tauto.
Defined.

(** C8, the claim at a caller's State that brings a connection, which is
    there before [connect], and at a user Operation that puts a connection
    of its own into the State, which is then not the one [connect]
    opened. *)
Lemma connection_present_before_connect :
  ¬ connection_invariant [operation_of Reference.select1] 1%positive
      Cases.stale_world
  ∧ ¬ connection_invariant [Cases.own_connection] 1%positive Reference.world0.
Proof.
  split.
  - intros Hclaim.
    destruct (Hclaim 4%positive
                (Adaptor.run [operation_of Reference.select1] 1%positive
                   Cases.stale_world).2) as [Hbefore _];
      [vm_compute; reflexivity|].
    vm_compute in Hbefore. discriminate.
  - intros Hclaim.
    destruct (Hclaim 4%positive
                (Adaptor.run [Cases.own_connection] 1%positive
                   Reference.world0).2) as (_ & _ & c & Hbetween);
      [vm_compute; reflexivity|].
    destruct (Hbetween 1) as (s1 & w1 & H1 & Hc1); [simpl; lia|].
    destruct (Hbetween 2) as (s2 & w2 & H2 & Hc2); [simpl; lia|].
    vm_compute in H1. injection H1 as <- <-.
    vm_compute in H2. injection H2 as <- <-.
    vm_compute in Hc1. vm_compute in Hc2. congruence.
Qed.

(** C8, amended, at a pipeline of an [insert] and a [sqlString] run on a
    State that brings a connection. *)
Lemma connection_held_from_connect_to_cleanup_witness :
  deref Cases.stale_world 1%positive !! "connection" = Some (SConn 2)
  ∧ deref (Adaptor.run
             (map (operation_of (H:=Reference.libs))
                [Reference.insert1; Reference.select1])
             1%positive Cases.stale_world).2 5%positive !! "connection" = None
  ∧ ∃ sk wk,
      commonExecute
        [Adaptor.connect; Adaptor.insert (H:=Reference.libs) "t" Reference.fields1;
         Adaptor.sqlString (H:=Reference.libs) Reference.SELECT_1; Adaptor.disconnect]
        (Adaptor.start 1%positive Cases.stale_world).1
        (Adaptor.start 1%positive Cases.stale_world).2 = (Resolved sk, wk)
      ∧ deref wk sk !! "connection" = Some (SConn 4).
Proof.
  destruct (connection_held_from_connect_to_cleanup (H:=Reference.libs)
              (map (operation_of (H:=Reference.libs))
                 [Reference.insert1; Reference.select1])
              1%positive Cases.stale_world 5%positive
              (Adaptor.run
                 (map (operation_of (H:=Reference.libs))
                    [Reference.insert1; Reference.select1])
                 1%positive Cases.stale_world).2)
    as (_ & Hfinal & Hquery & _ & cfg & s1 & w1 & s2 & w2 & c' & _ & _ & _ & _ & _
        & Hbetween); [vm_compute; reflexivity|].
  split; [vm_compute; reflexivity|]. split; [exact Hfinal|].
  destruct (Hbetween) with (k := 4) as (sk & wk & Hk & Hconn);
    [repeat constructor; apply Hquery | simpl; lia|].
  exists sk, wk. split; [exact Hk | exact Hconn].
Defined.

(** C9, the claim at [cleanupState] and at [disconnect]: each hands back
    the object it received and, with [cleanupState], the object has lost
    its connection. *)
Lemma cleanupState_mutates_its_argument :
  ¬ yields_new_state Adaptor.cleanupState Reference.state1 Reference.world1
  ∧ ¬ yields_new_state Adaptor.disconnect Reference.state1 Reference.world1
  ∧ (Adaptor.cleanupState Reference.state1 Reference.world1).1
    = Resolved Reference.state1
  ∧ deref Reference.world1 Reference.state1 !! "connection" = Some (SConn 2)
  ∧ deref (Adaptor.cleanupState Reference.state1 Reference.world1).2
      Reference.state1 !! "connection" = None.
Proof.
  split_and!; [| |reflexivity|vm_compute; reflexivity ..].
  - intros Hclaim.
    destruct (Hclaim Reference.state1 _ eq_refl) as [_ Hsame].
    apply (f_equal (λ o : option (gmap string sval), o ≫= (.!! "connection")))
      in Hsame.
    vm_compute in Hsame. discriminate.
  - intros Hclaim.
    destruct (Hclaim Reference.state1
                (add_calls [End 2] Reference.world1)) as [Hnew _]; [|done].
    vm_compute. reflexivity.
Qed.

(** C10 at [insert("t", {a: 1, b: dataValue("name")})]. *)
Lemma insert_overwrites_sqlString_binding_witness :
  sqlString_binding Reference.world1 = BFunction
  ∧ sqlString_binding
      (Adaptor.insert (H:=Reference.libs) "t" Reference.fields1
         Reference.state1 Reference.world1).2
    = BString "INSERT INTO t (`a`, `b`) VALUES (1, 'x')".
Proof.
  split; [reflexivity|].
  apply (insert_overwrites_sqlString_binding (H:=Reference.libs)
           "t" Reference.fields1 Reference.state1 Reference.world1).
  vm_compute. reflexivity.
Defined.

(** * Further properties of Adaptor.js *)

(** ** Tools *)

(** Whatever the outcome of a chain, its world has a property that holds
    wherever an invariant of the State holds and wherever an Operation
    rejects from such a State. *)
Lemma commonExecute_outcome {A} (I : A → World → Prop) (Q : World → Prop)
    (ops : list (A → M A)) :
  (∀ s w, I s w → Q w) →
  Forall (λ op, ∀ s w, I s w →
            match op s w with
            | (Resolved s', w') => I s' w'
            | (Rejected _, w') => Q w'
            end) ops →
  ∀ s w o w', I s w → commonExecute ops s w = (o, w') → Q w'.
Proof.
  intros HQ. induction ops as [|op ops IH]; intros Hops s w o w' HI.
  - rewrite commonExecute_nil. intros [= <- <-]. eauto.
  - apply Forall_cons in Hops as [Hop Hops].
    rewrite commonExecute_cons. unfold then_. specialize (Hop s w HI).
    destruct (op s w) as [[a|e] w1].
    + by apply IH.
    + by intros [= <- <-].
Qed.

Lemma merge_spec n state w :
  deref (Adaptor.merge n state w).2 (Adaptor.merge n state w).1
  = deref w state ∪ Adaptor.initialState n
  ∧ ((Adaptor.merge n state w).1 ∉ dom (store w))
  ∧ (store (Adaptor.merge n state w).2
     = <[(Adaptor.merge n state w).1 := deref w state ∪ Adaptor.initialState n]>
         (store w))
  ∧ (calls (Adaptor.merge n state w).2 = calls w)
  ∧ (next_id (Adaptor.merge n state w).2 = next_id w)
  ∧ (sqlString_binding (Adaptor.merge n state w).2 = sqlString_binding w).
Proof.
  unfold Adaptor.merge. destruct (alloc_state _ _) as [r w'] eqn:E. simpl.
  apply alloc_state_spec in E as (Hf & Hst & Hd & Hc & Hn & _ & Hb).
  by rewrite Hd, Hst.
Qed.

(** The Operation [execute(...operations)] returns, on any State and in any
    world. *)
Lemma execute_closure operations w0 state w :
  (Adaptor.execute operations w0).1 state w
  = commonExecute
      (Adaptor.connect :: operations ++ [Adaptor.disconnect; Adaptor.cleanupState])
      (Adaptor.merge (next_id w0) state w).1 (Adaptor.merge (next_id w0) state w).2.
Proof.
  unfold Adaptor.execute. simpl.
  by destruct (Adaptor.merge (next_id w0) state w).
Qed.

Lemma initialState_lookup n k :
  k ≠ "references" → k ≠ "data" → Adaptor.initialState n !! k = None.
Proof.
  intros H1 H2. unfold Adaptor.initialState.
  by rewrite lookup_insert_ne, lookup_singleton_ne.
Qed.

Lemma connect_rejected state w :
  destructure (deref w state !! "configuration") = None →
  Adaptor.connect state w = (Rejected missing_configuration, w).
Proof. unfold Adaptor.connect. by intros ->. Qed.

Lemma destructure_None v :
  destructure v = None ↔ v = None ∨ v = Some (SData DNull).
Proof.
  split.
  - destruct v as [[[]|]|]; simpl; intros; try discriminate; auto.
  - by intros [-> | ->].
Qed.

(** ** [connect] *)

(** X1: [connect] rejects exactly when the State has no configuration or a
    [null] one, with a TypeError and without any effect; on any other
    configuration, an object with fields missing or a value that is no
    object, it resolves, having asked the driver for one connection with
    the five options read off the configuration and for its opening, to a
    copy of the State that holds the connection. *)
Theorem connect_rejects_without_configuration (state : ref) (w : World) :
  ((deref w state !! "configuration" = None
    ∨ deref w state !! "configuration" = Some (SData DNull))
   ↔ ∃ e w', Adaptor.connect state w = (Rejected e, w'))
  ∧ ((∃ e w', Adaptor.connect state w = (Rejected e, w')) →
     Adaptor.connect state w = (Rejected missing_configuration, w))
  ∧ ((∀ e w', Adaptor.connect state w ≠ (Rejected e, w')) →
     ∃ s1 w1 prop,
       Adaptor.connect state w = (Resolved s1, w1)
       ∧ destructure (deref w state !! "configuration") = Some prop
       ∧ calls w1
         = calls w
           ++ [CreateConnection (next_id w)
                 (mkConfig (prop "host") (prop "user") (prop "password")
                    (prop "database") (prop "port"));
               Connect (next_id w)]
       ∧ deref w1 s1 = <["connection" := SConn (next_id w)]> (deref w state)).
Proof.
  rewrite <- destructure_None.
  destruct (destructure (deref w state !! "configuration")) as [prop|] eqn:Hd.
  - assert (∃ s1 w1, Adaptor.connect state w = (Resolved s1, w1)
              ∧ calls w1
                = calls w
                  ++ [CreateConnection (next_id w)
                        (mkConfig (prop "host") (prop "user") (prop "password")
                           (prop "database") (prop "port"));
                      Connect (next_id w)]
              ∧ deref w1 s1 = <["connection" := SConn (next_id w)]> (deref w state))
      as (s1 & w1 & Hrun & Hcalls & Hderef).
    { unfold Adaptor.connect. rewrite Hd.
      destruct (alloc_state _ _) as [r w0] eqn:E.
      apply alloc_state_spec in E as (_ & _ & Hdr & Hcalls & _).
      exists r, w0. split; [done|]. rewrite Hdr, Hcalls. world_simpl.
      by rewrite <- app_assoc. }
    split_and!.
    + split; [discriminate|]. intros (e & w' & He). congruence.
    + intros (e & w' & He). congruence.
    + intros _. by exists s1, w1, prop.
  - pose proof (connect_rejected state w Hd) as Hrej. split_and!.
    + split; [eauto|done].
    + done.
    + intros Hno. by destruct (Hno _ _ Hrej).
Qed.

(** X2: on a State without configuration, or with a [null] one, a run
    rejects with the TypeError of [connect] whatever the Operations are:
    none of them has run, the driver has not been called, and the only
    change is the merged State object. *)
Theorem run_without_configuration (operations : list Operation)
    (state : ref) (w : World) :
  deref w state !! "configuration" = None
  ∨ deref w state !! "configuration" = Some (SData DNull) →
  Adaptor.run operations state w
  = (Rejected missing_configuration, (Adaptor.start state w).2)
  ∧ calls (Adaptor.start state w).2 = calls w
  ∧ sqlString_binding (Adaptor.start state w).2 = sqlString_binding w
  ∧ ∀ r, r ∈ dom (store w) → store (Adaptor.start state w).2 !! r = store w !! r.
Proof.
  intros Hcfg.
  pose proof (merge_spec (next_id w) state (set_next_id (S (next_id w)) w))
    as (Hd & Hf & Hst & Hc & _ & Hb).
  fold (Adaptor.start state w) in Hd, Hf, Hst, Hc, Hb. world_simpl.
  split_and!; [|done|done|].
  - rewrite run_start, commonExecute_cons. apply then_rejected.
    apply connect_rejected, destructure_None. rewrite Hd.
    rewrite lookup_union_l by (by apply initialState_lookup). done.
  - intros r Hr. rewrite Hst. apply lookup_insert_ne. by intros <-.
Qed.

(** ** Runs *)

Lemma connect_resolves state w prop :
  destructure (deref w state !! "configuration") = Some prop →
  ∃ s1 w1,
    Adaptor.connect state w = (Resolved s1, w1)
    ∧ (s1 ∉ dom (store w))
    ∧ (store w1 = <[s1 := deref w1 s1]> (store w))
    ∧ (deref w1 s1 = <["connection" := SConn (next_id w)]> (deref w state))
    ∧ (calls w1
       = calls w
         ++ [CreateConnection (next_id w)
               (mkConfig (prop "host") (prop "user") (prop "password")
                  (prop "database") (prop "port"));
             Connect (next_id w)])
    ∧ (sqlString_binding w1 = sqlString_binding w).
Proof.
  intros Hd. unfold Adaptor.connect. rewrite Hd.
  destruct (alloc_state _ _) as [r w0] eqn:E.
  apply alloc_state_spec in E as (Hf & Hst & Hdr & Hcalls & _ & _ & Hb).
  exists r, w0. rewrite Hdr, Hst, Hcalls, Hb. world_simpl.
  by rewrite <- app_assoc.
Qed.

(** A run of [execute(...operations)] that resolved, taken apart. *)
Lemma closure_resolved operations w0 state w r w' :
  (Adaptor.execute operations w0).1 state w = (Resolved r, w') →
  ∃ s1 w1 s2 w2 c',
    Adaptor.connect (Adaptor.merge (next_id w0) state w).1
      (Adaptor.merge (next_id w0) state w).2 = (Resolved s1, w1)
    ∧ commonExecute operations s1 w1 = (Resolved s2, w2)
    ∧ deref w2 s2 !! "connection" = Some (SConn c')
    ∧ r = s2
    ∧ w' = set_store (alter (delete "connection") s2) (add_calls [End c'] w2).
Proof.
  rewrite execute_closure, commonExecute_cons.
  intros (s1 & w1 & Hconnect & Hrest)%then_inv.
  rewrite commonExecute_app in Hrest.
  apply then_inv in Hrest as (s2 & w2 & Hops & Hend).
  rewrite commonExecute_cons in Hend.
  apply then_inv in Hend as (s3 & w3 & Hdis & Hclean).
  rewrite commonExecute_single in Hclean.
  apply disconnect_resolved in Hdis as (c' & Hc' & -> & ->).
  unfold Adaptor.cleanupState in Hclean. injection Hclean as <- <-.
  by exists s1, w1, s2, w2, c'.
Qed.

Lemma run_closure operations state w :
  Adaptor.run operations state w
  = (Adaptor.execute operations w).1 state (set_next_id (S (next_id w)) w).
Proof. reflexivity. Qed.

Section further.
Context `{Libraries}.

(** Query Operations that all resolved, from a State with the connection
    [c]: each has sent one statement on [c], and the State has its fields
    but for [response]. *)
Lemma queries_run (qs : list query_op) : ∀ s w s' w' c,
  deref w s !! "connection" = Some (SConn c) →
  commonExecute (map operation_of qs) s w = (Resolved s', w') →
  ∃ sqls,
    calls w' = calls w ++ map (Query c) sqls
    ∧ length sqls = length qs
    ∧ (∀ k, k ≠ "response" → deref w' s' !! k = deref w s !! k).
Proof.
  induction qs as [|q qs IH]; intros s w s' w' c Hconn; simpl.
  - rewrite commonExecute_nil. intros [= <- <-]. exists []. simpl.
    by rewrite app_nil_r.
  - rewrite commonExecute_cons. intros (s1 & w1 & Hq & Hqs)%then_inv.
    apply query_resolved in Hq
      as (sql & c0 & ? & ? & ? & ? & _ & Hc0 & _ & _ & Hcalls & _ & _ & Hd).
    rewrite Hconn in Hc0. injection Hc0 as <-.
    assert (deref w1 s1 !! "connection" = Some (SConn c)) as Hconn1.
    { rewrite Hd. by rewrite lookup_insert_ne. }
    destruct (IH _ _ _ _ _ Hconn1 Hqs) as (sqls & Hcs & Hlen & Hframe).
    exists (sql :: sqls). split_and!.
    + rewrite Hcs, Hcalls, <- app_assoc. done.
    + simpl. by rewrite Hlen.
    + intros k Hk. rewrite (Hframe k Hk), Hd. by apply lookup_insert_ne.
Qed.

(** A run of query Operations that resolved: the connection [connect]
    opened, the statements sent on it, and the State returned. *)
Lemma closure_queries (qs : list query_op) w0 state w r w' :
  (Adaptor.execute (map operation_of qs) w0).1 state w = (Resolved r, w') →
  ∃ cfg sqls,
    calls w'
    = calls w ++ CreateConnection (next_id w) cfg :: Connect (next_id w)
        :: map (Query (next_id w)) sqls ++ [End (next_id w)]
    ∧ length sqls = length qs
    ∧ (∀ k, k ≠ "response" → k ≠ "connection" →
         deref w' r !! k = (deref w state ∪ Adaptor.initialState (next_id w0)) !! k)
    ∧ deref w' r !! "connection" = None.
Proof.
  intros (s1 & w1 & s2 & w2 & c' & Hconnect & Hqs & Hc' & -> & ->)%closure_resolved.
  pose proof (merge_spec (next_id w0) state w) as (Hd0 & _ & _ & Hcalls0 & Hn0 & _).
  apply connect_resolved in Hconnect as (cfg & _ & Hd1 & _ & _ & Hcalls1).
  rewrite Hn0 in Hd1, Hcalls1. rewrite Hcalls0 in Hcalls1. rewrite Hd0 in Hd1.
  assert (deref w1 s1 !! "connection" = Some (SConn (next_id w))) as Hconn1.
  { rewrite Hd1. apply lookup_insert_eq. }
  destruct (queries_run _ _ _ _ _ _ Hconn1 Hqs) as (sqls & Hcs & Hlen & Hframe).
  assert (c' = next_id w) as ->.
  { rewrite (Hframe "connection") in Hc' by done. congruence. }
  destruct (cleanupState_spec s2 (add_calls [End (next_id w)] w2))
    as (w3 & Hcl & Hd3 & _ & Hc3).
  unfold Adaptor.cleanupState in Hcl. injection Hcl as <-.
  exists cfg, sqls. split_and!.
  - world_simpl. rewrite Hcs, Hcalls1, <- !app_assoc. done.
  - done.
  - intros k Hk1 Hk2. rewrite Hd3. world_simpl.
    rewrite lookup_delete_ne by done. rewrite (Hframe k Hk1), Hd1.
    by apply lookup_insert_ne.
  - rewrite Hd3. apply lookup_delete_eq.
Qed.

End further.

(** X3: [execute()] of no Operation, run on a State with a configuration,
    is not the identity: it opens a connection and closes it, and resolves
    to a new State object that has the fields of the caller's State, with
    [references] and [data] from the defaults where the caller has none,
    and no [connection], even if the caller's State came with one. *)
Theorem execute_without_operations (state : ref) (w : World) (v : sval) :
  deref w state !! "configuration" = Some v →
  v ≠ SData DNull →
  ∃ r w' cfg,
    Adaptor.run [] state w = (Resolved r, w')
    ∧ (r ∉ dom (store w))
    ∧ (deref w' r
       = delete "connection" (deref w state ∪ Adaptor.initialState (next_id w)))
    ∧ (calls w'
       = calls w ++ [CreateConnection (S (next_id w)) cfg; Connect (S (next_id w));
                     End (S (next_id w))])
    ∧ (∀ o, o ∈ dom (store w) → store w' !! o = store w !! o).
Proof.
  intros Hcfg Hv.
  pose proof (merge_spec (next_id w) state (set_next_id (S (next_id w)) w))
    as (Hd0 & Hf0 & Hst0 & Hc0 & Hn0 & _).
  fold (Adaptor.start state w) in Hd0, Hf0, Hst0, Hc0, Hn0. world_simpl.
  destruct (destructure (deref (Adaptor.start state w).2 (Adaptor.start state w).1
                           !! "configuration")) as [prop|] eqn:Hdes.
  2:{ apply destructure_None in Hdes. rewrite Hd0 in Hdes.
      rewrite lookup_union_l in Hdes by (by apply initialState_lookup).
      rewrite Hcfg in Hdes. destruct Hdes as [|[= ->]]; done. }
  destruct (connect_resolves _ _ _ Hdes) as (s1 & w1 & Hrun & Hf1 & Hst1 & Hd1 & Hc1 & _).
  rewrite Hn0 in Hd1, Hc1.
  destruct (cleanupState_spec s1 (add_calls [End (S (next_id w))] w1))
    as (w3 & Hcl & Hd3 & Hother & Hc3).
  exists s1, w3. eexists. split_and!.
  - rewrite run_start. simpl. rewrite commonExecute_cons.
    rewrite (then_resolved _ _ _ _ _ Hrun), commonExecute_cons.
    assert (Adaptor.disconnect s1 w1
            = (Resolved s1, add_calls [End (S (next_id w))] w1)) as Hdis.
    { unfold Adaptor.disconnect. rewrite Hd1. by rewrite lookup_insert_eq. }
    rewrite (then_resolved _ _ _ _ _ Hdis), commonExecute_single. exact Hcl.
  - intros Hin. apply Hf1. rewrite Hst0. apply dom_insert_subseteq, Hin.
  - rewrite Hd3. world_simpl. by rewrite Hd1, delete_insert_eq, Hd0.
  - rewrite Hc3. world_simpl. rewrite Hc1, Hc0, <- app_assoc. done.
  - intros o Ho.
    assert (o ≠ s1) as Hne.
    { intros ->. apply Hf1. rewrite Hst0. apply dom_insert_subseteq, Ho. }
    rewrite Hother by done. world_simpl. rewrite Hst1.
    rewrite lookup_insert_ne by done. rewrite Hst0.
    apply lookup_insert_ne. by intros <-.
Qed.

(** X5: a run of query Operations that succeeds returns a State with every
    field of the caller's State other than [response] and [connection] as
    the caller gave it, and with [references] and [data] from the defaults
    of [execute] only where the caller's State has none. *)
Theorem run_keeps_fields_and_defaults `{Libraries} (qs : list query_op)
    (state : ref) (w : World) (r : ref) (w' : World) (k : string) :
  Adaptor.run (map operation_of qs) state w = (Resolved r, w') →
  k ≠ "response" →
  k ≠ "connection" →
  deref w' r !! k
  = match deref w state !! k with
    | Some v => Some v
    | None => Adaptor.initialState (next_id w) !! k
    end.
Proof.
  rewrite run_closure.
  intros (cfg & sqls & _ & _ & Hframe & _)%closure_queries Hk1 Hk2.
  rewrite (Hframe k Hk1 Hk2). world_simpl. rewrite lookup_union.
  destruct (deref w state !! k) as [v|]; [|by rewrite (left_id_L None _)].
  by destruct (Adaptor.initialState (next_id w) !! k).
Qed.

(** X6: a run of n query Operations that succeeds has made these driver
    calls and no other, in this order: one connection created and opened,
    n statements sent on that connection, and [end] called on it once. *)
Theorem successful_run_trace `{Libraries} (qs : list query_op)
    (state : ref) (w : World) (r : ref) (w' : World) :
  Adaptor.run (map operation_of qs) state w = (Resolved r, w') →
  ∃ c cfg sqls,
    calls w'
    = calls w ++ CreateConnection c cfg :: Connect c
        :: map (Query c) sqls ++ [End c]
    ∧ length sqls = length qs.
Proof.
  rewrite run_closure.
  intros (cfg & sqls & Hcalls & Hlen & _)%closure_queries.
  by exists (S (next_id w)), cfg, sqls.
Qed.

(** X15: the Operation of one [execute(...)] carries one [references]
    array: two runs of it, on States that bring no [references], return
    States that hold the same array object, the one made when [execute]
    was called; a later call of [execute] makes another. *)
Theorem references_shared_between_runs `{Libraries} (qs : list query_op) (w0 : World)
    (s1 : ref) (wa : World) (r1 : ref) (wa' : World)
    (s2 : ref) (wb : World) (r2 : ref) (wb' : World) :
  (Adaptor.execute (map operation_of qs) w0).1 s1 wa = (Resolved r1, wa') →
  (Adaptor.execute (map operation_of qs) w0).1 s2 wb = (Resolved r2, wb') →
  deref wa s1 !! "references" = None →
  deref wb s2 !! "references" = None →
  deref wa' r1 !! "references" = Some (SData (DArr (next_id w0) []))
  ∧ deref wb' r2 !! "references" = Some (SData (DArr (next_id w0) []))
  ∧ Adaptor.initialState (next_id (Adaptor.execute (map operation_of qs) w0).2)
      !! "references"
    ≠ Some (SData (DArr (next_id w0) [])).
Proof.
  intros (_ & _ & _ & _ & Hframe1 & _)%closure_queries
         (_ & _ & _ & _ & Hframe2 & _)%closure_queries Hnone1 Hnone2.
  rewrite Hframe1, Hframe2 by done.
  rewrite !lookup_union_r by done.
  unfold Adaptor.initialState. rewrite !lookup_insert_eq.
  split_and!; [done|done|]. simpl. intros [= Hn]. lia.
Qed.

Lemma disconnect_rejected state w :
  (∀ c, deref w state !! "connection" ≠ Some (SConn c)) →
  Adaptor.disconnect state w = (Rejected (not_callable "end"), w).
Proof.
  intros Hno. unfold Adaptor.disconnect.
  destruct (deref w state !! "connection") as [[d|c]|]; try done.
  by destruct (Hno c).
Qed.

Lemma connect_binding state w :
  sqlString_binding (Adaptor.connect state w).2 = sqlString_binding w.
Proof.
  destruct (destructure (deref w state !! "configuration")) as [prop|] eqn:Hd.
  - destruct (connect_resolves _ _ _ Hd) as (s1 & w1 & -> & _ & _ & _ & _ & Hb).
    exact Hb.
  - by rewrite connect_rejected.
Qed.

Section further_queries.
Context `{Libraries}.

(** A query Operation whose statement cannot be rendered rejects with the
    error of the library and has done nothing. *)
Lemma statement_error q s w e :
  statement_of q (deref w s) = inl e → operation_of q s w = (Rejected e, w).
Proof.
  destruct q as [table fields|table fields|fun_]; simpl; [| |discriminate];
    [unfold Adaptor.insert | unfold Adaptor.upsert]; by intros ->.
Qed.

Lemma query_binding q s w :
  is_insert q = false →
  sqlString_binding (operation_of q s w).2 = sqlString_binding w.
Proof.
  destruct q as [table fields|table fields|fun_]; [discriminate| |]; intros _; simpl;
    [unfold Adaptor.upsert; destruct (Adaptor.upsert_statement _ _ _) as [e|sql];
       [done|]
    |unfold Adaptor.sqlString];
    (destruct (deref w s !! "connection") as [[d|c]|]; try done);
    (destruct (Adaptor.connection_query _ _ _) as [[err|[results flds']] w1] eqn:Eq;
     [by apply connection_query_inl in Eq as [_ ->]|]);
    apply connection_query_inr in Eq as (res & flds & _ & _ & _ & _ & _ & Hb);
    try destruct (JSON_parse _ _) as [body n];
    destruct (Adaptor.nextState _ _ _) as [o w2] eqn:En;
    apply nextState_spec in En as (r & _ & _ & _ & _ & _ & Hb2);
    simpl; by rewrite Hb2.
Qed.

End further_queries.

Lemma untouched_dom w wk r : untouched w wk → r ∈ dom (store w) → r ∈ dom (store wk).
Proof.
  intros Hu Hr. apply elem_of_dom. rewrite (Hu r Hr). by apply elem_of_dom.
Qed.

Lemma copies_apart k w s wk o :
  outcome_copies k s wk o → apart w s wk →
  match o with
  | (Resolved s', w') => apart w s' w'
  | (Rejected _, w') => untouched w w'
  end.
Proof.
  destruct o as [[s'|e] w']; simpl; intros Hcopy [Hs Hu].
  - destruct Hcopy as (Hf & Hold & _). split.
    + intros Hin. apply Hf. by eapply untouched_dom.
    + intros r Hr. rewrite Hold by (by eapply untouched_dom). by apply Hu.
  - intros r Hr. rewrite Hcopy. by apply Hu.
Qed.

(** X4: a run of query Operations, whether it succeeds or fails, changes
    no State object that existed before it, the caller's State among them:
    [execute] and the Operations work on copies, and [cleanupState] mutates
    an object made during the run. *)
Theorem run_leaves_callers_objects `{Libraries} (qs : list query_op)
    (state : ref) (w : World) (r : ref) :
  r ∈ dom (store w) →
  store (Adaptor.run (map operation_of qs) state w).2 !! r = store w !! r.
Proof.
  intros Hr. rewrite run_start.
  destruct (commonExecute _ _ _) as [o w'] eqn:E. simpl.
  revert r Hr. change (untouched w w').
  eapply (commonExecute_outcome (apart w) (untouched w)); [| | |exact E].
  - by intros s wk [_ Hu].
  - apply Forall_cons. split.
    { intros s wk Ha. eapply copies_apart; [apply connect_copies|done]. }
    apply Forall_app. split.
    { apply Forall_map, Forall_forall. intros q _ s wk Ha.
      eapply copies_apart; [apply query_copies|done]. }
    apply Forall_cons. split; [|apply Forall_cons; split; [|by apply Forall_nil]];
      intros s wk [Hs Hu].
    + unfold Adaptor.disconnect.
      by destruct (deref wk s !! "connection") as [[d|c]|].
    + split; [done|]. intros o' Ho. simpl.
      rewrite lookup_alter_ne by (by intros ->). by apply Hu.
  - pose proof (merge_spec (next_id w) state (set_next_id (S (next_id w)) w))
      as (_ & Hf & Hst & _).
    fold (Adaptor.start state w) in Hf, Hst. world_simpl.
    split; [done|]. intros o' Ho. rewrite Hst.
    apply lookup_insert_ne. by intros <-.
Qed.

(** X7: when a query Operation meets an error of the driver after the
    query Operations before it resolved, the driver calls of the run are,
    in this order: the connection created and opened, one statement for
    each Operation before, the failing statement, and [end], all on the
    connection [connect] opened; the Operations after it send nothing. *)
Theorem failing_run_trace `{Libraries} (pre post : list query_op) (q : query_op)
    (state : ref) (w : World) (si : ref) (wi : World) (sql : string) (e : error) :
  commonExecute (Adaptor.connect :: map operation_of pre)
    (Adaptor.start state w).1 (Adaptor.start state w).2 = (Resolved si, wi) →
  statement_of q (deref wi si) = inr sql →
  server (calls wi) (S (next_id w)) sql = QueryError e →
  ∃ cfg sqls w',
    Adaptor.run (map operation_of (pre ++ q :: post)) state w = (Rejected e, w')
    ∧ calls w'
      = calls w ++ CreateConnection (S (next_id w)) cfg :: Connect (S (next_id w))
          :: map (Query (S (next_id w))) sqls
          ++ [Query (S (next_id w)) sql; End (S (next_id w))]
    ∧ length sqls = length pre.
Proof.
  intros Hpre Hsql Hsrv. pose proof Hpre as Hpre'.
  rewrite commonExecute_cons in Hpre.
  apply then_inv in Hpre as (s1 & w1 & Hconnect & Hqs).
  destruct (start_spec state w) as (_ & Hc0 & Hn0).
  apply connect_resolved in Hconnect as (cfg & _ & Hd1 & _ & _ & Hc1).
  rewrite Hn0 in Hd1, Hc1. rewrite Hc0 in Hc1.
  assert (deref w1 s1 !! "connection" = Some (SConn (S (next_id w)))) as Hconn1.
  { rewrite Hd1. apply lookup_insert_eq. }
  destruct (queries_run _ _ _ _ _ _ Hconn1 Hqs) as (sqls & Hcs & Hlen & Hframe).
  assert (deref wi si !! "connection" = Some (SConn (S (next_id w)))) as Hconni.
  { by rewrite Hframe. }
  destruct (query_rejected q si wi sql _ e Hsql Hconni Hsrv) as (w' & Hq & Hcalls).
  exists cfg, sqls, w'. split_and!.
  - rewrite run_start, map_app. simpl. rewrite <- app_assoc. simpl.
    by apply (commonExecute_rejected (Adaptor.connect :: map operation_of pre)
                _ _ _ _ si wi).
  - rewrite Hcalls, Hcs, Hc1, <- !app_assoc. done.
  - done.
Qed.

(** X8: when the statement of an [insert] or [upsert] cannot be rendered,
    because resolving the fields or the query builder throws, after the
    Operations before it resolved, the run rejects with that error and the
    failing Operation has done nothing: no statement sent, nothing logged,
    and, unlike for an error of the driver, no call of [end], so that the
    connection stays open. *)
Theorem rendering_error_leaves_connection_open `{Libraries}
    (pre post : list query_op) (q : query_op)
    (state : ref) (w : World) (si : ref) (wi : World) (e : error) :
  commonExecute (Adaptor.connect :: map operation_of pre)
    (Adaptor.start state w).1 (Adaptor.start state w).2 = (Resolved si, wi) →
  statement_of q (deref wi si) = inl e →
  Adaptor.run (map operation_of (pre ++ q :: post)) state w = (Rejected e, wi)
  ∧ ∃ c cfg cs,
      calls wi = calls w ++ CreateConnection c cfg :: Connect c :: cs
      ∧ ends cs = 0.
Proof.
  intros Hpre Hsql. split.
  - rewrite run_start, map_app. simpl. rewrite <- app_assoc. simpl.
    apply (commonExecute_rejected (Adaptor.connect :: map operation_of pre)
             _ _ _ _ si wi); [done|].
    by apply statement_error.
  - rewrite commonExecute_cons in Hpre.
    apply then_inv in Hpre as (s1 & w1 & Hconnect & Hqs).
    destruct (start_spec state w) as (_ & Hc0 & _).
    apply connect_resolved in Hconnect as (cfg & _ & _ & _ & _ & Hc1).
    rewrite Hc0 in Hc1.
    apply queries_resolved_calls in Hqs as (cs & Hcs & Hends).
    exists (next_id (Adaptor.start state w).2), cfg, cs. split; [|done].
    rewrite Hcs, Hc1, <- app_assoc. done.
Qed.

(** X9: a query Operation run on a State that holds no connection, its
    statement rendered, rejects with a TypeError: no statement is sent and
    no State object is made or changed. *)
Theorem query_without_connection `{Libraries} (q : query_op) (s : ref) (w : World)
    (sql : string) :
  statement_of q (deref w s) = inr sql →
  (∀ c, deref w s !! "connection" ≠ Some (SConn c)) →
  ∃ w',
    operation_of q s w = (Rejected (not_callable "query"), w')
    ∧ calls w' = calls w
    ∧ store w' = store w.
Proof.
  intros Hsql Hno.
  destruct q as [table fields|table fields|fun_]; simpl in *;
    [unfold Adaptor.insert | unfold Adaptor.upsert | unfold Adaptor.sqlString];
    rewrite ?Hsql;
    (destruct (deref w s !! "connection") as [[d|c]|];
     [|by destruct (Hno c)|]); by eexists.
Qed.

(** X10: when the user Operations resolve to a State that no longer holds
    the connection, the run rejects with the TypeError of [disconnect]: the
    world is the one the last user Operation left, so [end] has not been
    called on the connection [connect] opened and [cleanupState] has not
    run. *)
Theorem run_rejects_when_connection_is_lost (operations : list Operation)
    (state : ref) (w : World) (s1 : ref) (w1 : World) (s2 : ref) (w2 : World) :
  Adaptor.connect (Adaptor.start state w).1 (Adaptor.start state w).2
    = (Resolved s1, w1) →
  commonExecute operations s1 w1 = (Resolved s2, w2) →
  (∀ c, deref w2 s2 !! "connection" ≠ Some (SConn c)) →
  Adaptor.run operations state w = (Rejected (not_callable "end"), w2).
Proof.
  intros Hconnect Hops Hno.
  rewrite run_start, commonExecute_cons, (then_resolved _ _ _ _ _ Hconnect).
  rewrite commonExecute_app, (then_resolved _ _ _ _ _ Hops), commonExecute_cons.
  apply then_rejected. by apply disconnect_rejected.
Qed.

(** X17: whatever the user Operations and whatever the caller's State, a
    run that succeeds returns a State without [connection], and its last
    driver call is [end]. *)
Theorem run_never_returns_connection (operations : list Operation) (w0 : World)
    (state : ref) (w : World) (r : ref) (w' : World) :
  (Adaptor.execute operations w0).1 state w = (Resolved r, w') →
  deref w' r !! "connection" = None
  ∧ ∃ c, last (calls w') = Some (End c).
Proof.
  intros (s1 & w1 & s2 & w2 & c' & _ & _ & _ & -> & ->)%closure_resolved.
  destruct (cleanupState_spec s2 (add_calls [End c'] w2)) as (w3 & Hcl & Hd3 & _).
  unfold Adaptor.cleanupState in Hcl. injection Hcl as <-. split.
  - rewrite Hd3. apply lookup_delete_eq.
  - exists c'. world_simpl. apply last_snoc.
Qed.


(** ** The module binding, the response body, [cleanupState], [upsert] *)

(** X11: only [insert] assigns the module binding [sqlString]: a run of
    [upsert] and [sqlString] Operations, whether it succeeds or fails,
    leaves the binding as it was. *)
Theorem binding_kept_without_insert `{Libraries} (qs : list query_op)
    (state : ref) (w : World) :
  existsb is_insert qs = false →
  sqlString_binding (Adaptor.run (map operation_of qs) state w).2
  = sqlString_binding w.
Proof.
  intros Hqs. rewrite run_start.
  destruct (commonExecute _ _ _) as [o w'] eqn:E. simpl.
  eapply (commonExecute_outcome
            (λ _ wk, sqlString_binding wk = sqlString_binding w)
            (λ wk, sqlString_binding wk = sqlString_binding w)); [| | |exact E].
  - done.
  - apply Forall_cons. split.
    { intros s wk Hb. pose proof (connect_binding s wk) as Hc.
      destruct (Adaptor.connect s wk) as [[s'|e] w1]; simpl in Hc; congruence. }
    apply Forall_app. split.
    { apply Forall_map, Forall_forall. intros q Hq s wk Hb.
      assert (is_insert q = false) as Hnot.
      { destruct (is_insert q) eqn:Hi; [|done].
        assert (existsb is_insert qs = true) as Hex; [|congruence].
        apply existsb_exists. exists q. split; [by apply list_elem_of_In|done]. }
      pose proof (query_binding q s wk Hnot) as Hc.
      destruct (operation_of q s wk) as [[s'|e] w1]; simpl in Hc; congruence. }
    apply Forall_cons. split; [|apply Forall_cons; split; [|by apply Forall_nil]];
      intros s wk Hb.
    + unfold Adaptor.disconnect.
      by destruct (deref wk s !! "connection") as [[d|c]|].
    + done.
  - pose proof (merge_spec (next_id w) state (set_next_id (S (next_id w)) w))
      as (_ & _ & _ & _ & _ & Hb).
    exact Hb.
Qed.

Lemma to_json_is_plain t : plain (to_json t).
Proof.
  induction t as [ | b | z | s | iso | xs IH | fs IH] using tree_ind'; simpl;
    try done.
  - induction IH as [|x xs Hx _ IHxs]; simpl; [done|by split].
  - induction IH as [|[k x] fs Hx _ IHfs]; simpl; [done|by split].
Qed.

(** X12: the [response.body] that [sqlString] resolves with is plain data
    whatever the driver returned: it holds no Date, and serialising it
    again gives back its own content. *)
Theorem sqlString_body_is_plain `{Libraries}
    (fun_ : gmap string sval → string) (s : ref) (w : World) (s' : ref) (w' : World) :
  Adaptor.sqlString fun_ s w = (Resolved s', w') →
  ∃ bid body,
    deref w' s' !! "response" = Some (SData (DObj bid [("body", body)]))
    ∧ plain (content body)
    ∧ JSON_stringify body = content body.
Proof.
  intros Hrun.
  apply (query_resolved (SqlString fun_)) in Hrun
    as (? & ? & res & ? & bid & body & _ & _ & _ & Hc & _ & _ & _ & Hd).
  exists bid, body. split_and!.
  - rewrite Hd. apply lookup_insert_eq.
  - rewrite Hc. apply to_json_is_plain.
  - unfold JSON_stringify. rewrite Hc. apply to_json_plain, to_json_is_plain.
Qed.

(** X13: [cleanupState] never fails and is idempotent: a second call
    changes nothing; on a State without [connection] the first call
    already changes nothing. *)
Theorem cleanupState_idempotent (state : ref) (w : World) :
  Adaptor.cleanupState state (Adaptor.cleanupState state w).2
  = Adaptor.cleanupState state w
  ∧ (deref w state !! "connection" = None →
     Adaptor.cleanupState state w = (Resolved state, w)).
Proof.
  unfold Adaptor.cleanupState. simpl. split.
  - f_equal. unfold set_store. simpl. f_equal.
    apply map_eq. intros r. destruct (decide (state = r)) as [->|Hne].
    + rewrite !lookup_alter_eq. destruct (store w !! r); simpl; [|done].
      by rewrite delete_delete_eq.
    + by rewrite !lookup_alter_ne.
  - intros Hnone. f_equal. destruct w as [st n cs lg b]. unfold set_store. simpl in *.
    f_equal. apply alter_id. intros x Hx. apply delete_id.
    by rewrite (lookup_total_correct _ _ _ Hx) in Hnone.
Qed.

(** X14: [upsert] renders whenever it can on top of what [insert] renders
    for the same table, fields and State: where [insert] fails to render,
    [upsert] fails with the same error, and a statement of [upsert] starts
    with the statement of [insert] followed by the keyword. *)
Theorem upsert_extends_insert `{Libraries} (table : string) (fields : Fields)
    (state : gmap string sval) :
  (∀ e, Adaptor.insert_statement table fields state = inl e →
        Adaptor.upsert_statement table fields state = inl e)
  ∧ (∀ u, Adaptor.upsert_statement table fields state = inr u →
          ∃ i, Adaptor.insert_statement table fields state = inr i
               ∧ String.prefix (i +:+ Adaptor.ON_DUPLICATE_KEY_UPDATE) u = true).
Proof.
  unfold Adaptor.insert_statement, Adaptor.upsert_statement.
  destruct (expandReferences fields state) as [e0|valuesObj]; [split; [done|discriminate]|].
  destruct (squel_insert table valuesObj) as [e0|[sql inserts]];
    [split; [done|discriminate]|].
  split; [discriminate|].
  intros u Hu. eexists. split; [reflexivity|].
  destruct (squel_update EmptyString valuesObj) as [e0|[sql' inserts']];
    [discriminate|].
  injection Hu as <-. rewrite <- append_assoc. apply prefix_append.
Qed.

(** X18: the [response] a successful run of query Operations returns is
    the one its last query Operation made, an object with the body of that
    Operation: what earlier Operations left in [response] is gone. *)
Theorem run_returns_last_response `{Libraries} (pre : list query_op) (q : query_op)
    (state : ref) (w : World) (r : ref) (w' : World) :
  Adaptor.run (map operation_of (pre ++ [q])) state w = (Resolved r, w') →
  ∃ si wi s2 w2 bid body,
    commonExecute (Adaptor.connect :: map operation_of pre)
      (Adaptor.start state w).1 (Adaptor.start state w).2 = (Resolved si, wi)
    ∧ operation_of q si wi = (Resolved s2, w2)
    ∧ deref w2 s2 !! "response" = Some (SData (DObj bid [("body", body)]))
    ∧ deref w' r !! "response" = deref w2 s2 !! "response".
Proof.
  rewrite run_closure.
  intros (s1 & w1 & s2 & w2 & c' & Hconnect & Hqs & _ & -> & ->)%closure_resolved.
  change (Adaptor.merge (next_id w) state (set_next_id (S (next_id w)) w))
    with (Adaptor.start state w) in Hconnect.
  rewrite map_app in Hqs. simpl in Hqs.
  apply commonExecute_split in Hqs as (sa & wa & sb & wb & Hpre & Hq & Hnil).
  rewrite commonExecute_nil in Hnil. injection Hnil as <- <-.
  pose proof (query_resolved _ _ _ _ _ Hq)
    as (? & ? & ? & ? & bid & body & _ & _ & _ & _ & _ & _ & _ & Hd).
  exists sa, wa, sb, wb, bid, body. split_and!.
  - rewrite commonExecute_cons. by rewrite (then_resolved _ _ _ _ _ Hconnect).
  - done.
  - rewrite Hd. apply lookup_insert_eq.
  - destruct (cleanupState_spec sb (add_calls [End c'] wb)) as (w3 & Hcl & Hd3 & _).
    unfold Adaptor.cleanupState in Hcl. injection Hcl as <-.
    rewrite Hd3. world_simpl. by rewrite lookup_delete_ne.
Qed.

Lemma connection_query_console `{Libraries} c sql w :
  console (Adaptor.connection_query c sql w).2 = console w.
Proof.
  unfold Adaptor.connection_query.
  destruct (server _ _ _) as [err|res flds]; [reflexivity|].
  cbn [next_id add_calls]. destruct (build res _) as [results n1].
  destruct flds as [f|]; [destruct (build f n1)|]; reflexivity.
Qed.

Lemma nextState_console state body w :
  ∃ r, (Adaptor.nextState state body w).1 = Resolved r
       ∧ console (Adaptor.nextState state body w).2 = console w.
Proof. unfold Adaptor.nextState, alloc_state. by eexists. Qed.

(** X19: a query Operation whose statement renders logs the statement
    before anything else, also when the State holds no connection and the
    statement is never sent; a rejection adds at most the fixed line about
    the error, never the error itself, and a success goes on with
    [Success...]. *)
Theorem statement_logged_before_sending `{Libraries} (q : query_op)
    (s : ref) (w : World) (sql : string) :
  statement_of q (deref w s) = inr sql →
  ∃ rest,
    console (operation_of q s w).2
    = console w ++ LStr (announcement q +:+ sql) :: rest
    ∧ match (operation_of q s w).1 with
      | Resolved _ => ∃ more, rest = LStr "Success..." :: more
      | Rejected e =>
          (rest = [] ∧ e = not_callable "query") ∨ rest = [That's_an_error]
      end.
Proof.
  intros Hst.
  destruct q as [table fields|table fields|fun_];
    cbn [operation_of statement_of announcement] in *.
  - unfold Adaptor.insert. rewrite Hst.
    destruct (deref w s !! "connection") as [[d|c]|] eqn:Hc;
      try (exists []; split; [reflexivity|by left]).
    match goal with
    | |- context [Adaptor.connection_query c sql ?w0] =>
        pose proof (connection_query_console c sql w0) as Hcon;
        destruct (Adaptor.connection_query c sql w0)
          as [[err|[results flds]] w1] eqn:Hq
    end; cbn [snd console console_log set_binding] in Hcon.
    + exists [That's_an_error]. cbn [fst snd console add_calls console_log].
      rewrite Hcon, <- app_assoc. split; [reflexivity|by right].
    + match goal with
      | |- context [Adaptor.nextState s results ?w2] =>
          destruct (nextState_console s results w2) as (r & -> & ->)
      end.
      exists [LStr "Success..."; LVal (Some results); LVal flds].
      cbn [console console_log]. rewrite Hcon, <- app_assoc.
      split; [reflexivity|by eexists].
  - unfold Adaptor.upsert. rewrite Hst.
    destruct (deref w s !! "connection") as [[d|c]|] eqn:Hc;
      try (exists []; split; [reflexivity|by left]).
    match goal with
    | |- context [Adaptor.connection_query c sql ?w0] =>
        pose proof (connection_query_console c sql w0) as Hcon;
        destruct (Adaptor.connection_query c sql w0)
          as [[err|[results flds]] w1] eqn:Hq
    end; cbn [snd console console_log] in Hcon.
    + exists [That's_an_error]. cbn [fst snd console add_calls console_log].
      rewrite Hcon, <- app_assoc. split; [reflexivity|by right].
    + match goal with
      | |- context [Adaptor.nextState s results ?w2] =>
          destruct (nextState_console s results w2) as (r & -> & ->)
      end.
      exists [LStr "Success..."; LVal (Some results); LVal flds].
      cbn [console console_log]. rewrite Hcon, <- app_assoc.
      split; [reflexivity|by eexists].
  - injection Hst as <-. unfold Adaptor.sqlString.
    destruct (deref w s !! "connection") as [[d|c]|] eqn:Hc;
      try (exists []; split; [reflexivity|by left]).
    match goal with
    | |- context [Adaptor.connection_query c ?sql ?w0] =>
        pose proof (connection_query_console c sql w0) as Hcon;
        destruct (Adaptor.connection_query c sql w0)
          as [[err|[results flds]] w1] eqn:Hq
    end; cbn [snd console console_log] in Hcon.
    + exists [That's_an_error]. cbn [fst snd console add_calls console_log].
      rewrite Hcon, <- app_assoc. split; [reflexivity|by right].
    + cbn [next_id console_log].
      destruct (JSON_parse (JSON_stringify results) (next_id w1)) as [data n].
      match goal with
      | |- context [Adaptor.nextState s data ?w2] =>
          destruct (nextState_console s data w2) as (r & -> & ->)
      end.
      exists [LStr "Success..."; LVal (Some data)].
      cbn [console console_log set_next_id]. rewrite Hcon, <- !app_assoc.
      split; [reflexivity|by eexists].
Qed.

(** * The further properties at work *)

(** X2 at a State that has only [data]. *)
Lemma run_without_configuration_witness :
  (Adaptor.run [operation_of Reference.insert1] 1%positive Cases.bare_world).1
  = Rejected missing_configuration
  ∧ calls (Adaptor.run [operation_of Reference.insert1] 1%positive Cases.bare_world).2
    = [].
Proof.
  destruct (run_without_configuration [operation_of Reference.insert1]
              1%positive Cases.bare_world) as (Hrun & Hcalls & _).
  - left. vm_compute. reflexivity.
  - rewrite Hrun. split; [reflexivity|exact Hcalls].
Defined.

(** X3 at the caller's State of [Reference.world0]. *)
Lemma execute_without_operations_witness :
  ∃ r w',
    Adaptor.run [] 1%positive Reference.world0 = (Resolved r, w')
    ∧ deref w' r !! "references" = Some (SData (DArr 2 []))
    ∧ deref w' r !! "connection" = None
    ∧ queries (calls w') = []
    ∧ ends (calls w') = 1.
Proof.
  destruct (execute_without_operations 1%positive Reference.world0
              (SData Reference.configuration))
    as (r & w' & cfg & Hrun & _ & Hd & Hcalls & _).
  - vm_compute. reflexivity.
  - discriminate.
  - exists r, w'. split; [exact Hrun|]. rewrite Hd, Hcalls.
    split; [vm_compute; reflexivity|].
    split; [apply lookup_delete_eq|]. split; reflexivity.
Defined.

(** X4 at a run that fails at its second Operation. *)
Lemma run_leaves_callers_objects_witness :
  store (Adaptor.run
           (map (operation_of (H:=Reference.libs))
              [Reference.insert1; Reference.selec; Reference.select1])
           1%positive Reference.world0).2 !! 1%positive
  = Some Reference.state0.
Proof.
  rewrite (run_leaves_callers_objects (H:=Reference.libs)
             [Reference.insert1; Reference.selec; Reference.select1]
             1%positive Reference.world0 1%positive).
  - apply lookup_singleton_eq.
  - apply elem_of_dom. unfold Reference.world0. simpl.
    rewrite lookup_singleton_eq. by eexists.
Defined.

(** X5 at the default [references] and at the caller's [data]. *)
Lemma run_keeps_fields_and_defaults_witness :
  deref (Adaptor.run [operation_of Reference.insert1] 1%positive Reference.world0).2
    4%positive !! "references" = Some (SData (DArr 2 []))
  ∧ deref (Adaptor.run [operation_of Reference.insert1] 1%positive Reference.world0).2
      4%positive !! "data" = Some (SData (DObj 1 [("name", DStr "x")])).
Proof.
  split.
  - etransitivity.
    + apply (run_keeps_fields_and_defaults (H:=Reference.libs) [Reference.insert1]
               1%positive Reference.world0 4%positive
               (Adaptor.run [operation_of Reference.insert1]
                  1%positive Reference.world0).2 "references");
        [vm_compute; reflexivity|discriminate|discriminate].
    + vm_compute. reflexivity.
  - etransitivity.
    + apply (run_keeps_fields_and_defaults (H:=Reference.libs) [Reference.insert1]
               1%positive Reference.world0 4%positive
               (Adaptor.run [operation_of Reference.insert1]
                  1%positive Reference.world0).2 "data");
        [vm_compute; reflexivity|discriminate|discriminate].
    + vm_compute. reflexivity.
Defined.

(** X6 at a pipeline of an [insert] and a [sqlString]. *)
Lemma successful_run_trace_witness :
  ∃ c cfg sqls,
    calls (Adaptor.run
             (map (operation_of (H:=Reference.libs))
                [Reference.insert1; Reference.select1])
             1%positive Reference.world0).2
    = calls Reference.world0 ++ CreateConnection c cfg :: Connect c
        :: map (Query c) sqls ++ [End c]
    ∧ length sqls = 2.
Proof.
  apply (successful_run_trace (H:=Reference.libs)
           [Reference.insert1; Reference.select1] 1%positive Reference.world0
           5%positive).
  vm_compute. reflexivity.
Defined.

(** X7 at a pipeline whose second statement the database refuses. *)
Lemma failing_run_trace_witness :
  ∃ cfg sqls w',
    Adaptor.run
      (map (operation_of (H:=Reference.libs))
         ([Reference.select1] ++ Reference.selec :: [Reference.insert1]))
      1%positive Reference.world0
    = (Rejected (Exception "ER_PARSE_ERROR"), w')
    ∧ calls w'
      = calls Reference.world0 ++ CreateConnection 3 cfg :: Connect 3
          :: map (Query 3) sqls ++ [Query 3 "SELEC"; End 3]
    ∧ length sqls = 1.
Proof.
  apply (failing_run_trace (H:=Reference.libs)
           [Reference.select1] [Reference.insert1] Reference.selec
           1%positive Reference.world0 4%positive
           (commonExecute
              [Adaptor.connect; operation_of Reference.select1]
              (Adaptor.start 1%positive Reference.world0).1
              (Adaptor.start 1%positive Reference.world0).2).2
           "SELEC" (Exception "ER_PARSE_ERROR"));
    vm_compute; reflexivity.
Defined.

(** X8 at an [insert] whose field refers to a value the State has not. *)
Lemma rendering_error_leaves_connection_open_witness :
  (Adaptor.run
     (map (operation_of (H:=Reference.libs))
        ([Reference.select1] ++ Cases.dangling :: [Reference.insert1]))
     1%positive Reference.world0).1
  = Rejected (Exception "Resolution Error")
  ∧ ends (calls (Adaptor.run
                   (map (operation_of (H:=Reference.libs))
                      ([Reference.select1] ++ Cases.dangling :: [Reference.insert1]))
                   1%positive Reference.world0).2) = 0.
Proof.
  destruct (rendering_error_leaves_connection_open (H:=Reference.libs)
              [Reference.select1] [Reference.insert1] Cases.dangling
              1%positive Reference.world0 4%positive
              (commonExecute
                 [Adaptor.connect; operation_of Reference.select1]
                 (Adaptor.start 1%positive Reference.world0).1
                 (Adaptor.start 1%positive Reference.world0).2).2
              (Exception "Resolution Error")) as [Hrun _];
    [vm_compute; reflexivity ..|].
  rewrite Hrun. split; [reflexivity|vm_compute; reflexivity].
Defined.

(** X9 at an [insert] run on the caller's State, before any [connect]. *)
Lemma query_without_connection_witness :
  ∃ w',
    operation_of Reference.insert1 1%positive Reference.world0
    = (Rejected (not_callable "query"), w')
    ∧ calls w' = []
    ∧ store w' = store Reference.world0.
Proof.
  apply (query_without_connection (H:=Reference.libs) Reference.insert1
           1%positive Reference.world0 "INSERT INTO t (`a`, `b`) VALUES (1, 'x')").
  - vm_compute. reflexivity.
  - intros c. vm_compute. discriminate.
Defined.

(** X10 at a user Operation that forgets the connection. *)
Lemma run_rejects_when_connection_is_lost_witness :
  (Adaptor.run [Cases.forget_connection] 1%positive Reference.world0).1
  = Rejected (not_callable "end")
  ∧ ends (calls (Adaptor.run [Cases.forget_connection]
                   1%positive Reference.world0).2) = 0.
Proof.
  rewrite (run_rejects_when_connection_is_lost [Cases.forget_connection]
             1%positive Reference.world0 3%positive
             (Adaptor.connect (Adaptor.start 1%positive Reference.world0).1
                (Adaptor.start 1%positive Reference.world0).2).2
             4%positive
             (Cases.forget_connection 3%positive
                (Adaptor.connect (Adaptor.start 1%positive Reference.world0).1
                   (Adaptor.start 1%positive Reference.world0).2).2).2).
  - split; [reflexivity|vm_compute; reflexivity].
  - vm_compute. reflexivity.
  - vm_compute. reflexivity.
  - intros c. vm_compute. discriminate.
Defined.

(** X11 at a pipeline of an [upsert] and a [sqlString]. *)
Lemma binding_kept_without_insert_witness :
  sqlString_binding
    (Adaptor.run
       (map (operation_of (H:=Reference.libs)) [Cases.upsert1; Reference.select1])
       1%positive Reference.world0).2
  = BFunction.
Proof.
  rewrite (binding_kept_without_insert (H:=Reference.libs)
             [Cases.upsert1; Reference.select1] 1%positive Reference.world0);
    reflexivity.
Defined.

(** X12 at a statement that selects a date. *)
Lemma sqlString_body_is_plain_witness :
  ∃ bid body,
    deref (Adaptor.sqlString (H:=Reference.libs) Reference.SELECT_NOW
             Reference.state1 Reference.world1).2 3%positive !! "response"
    = Some (SData (DObj bid [("body", body)]))
    ∧ plain (content body)
    ∧ JSON_stringify body = content body.
Proof.
  apply (sqlString_body_is_plain (H:=Reference.libs) Reference.SELECT_NOW
           Reference.state1 Reference.world1 3%positive).
  vm_compute. reflexivity.
Defined.

(** X15 at two runs of one [execute(sqlString(...))]. *)
Lemma references_shared_between_runs_witness :
  deref ((Adaptor.execute [operation_of Reference.select1] Reference.world0).1
           1%positive
           (Adaptor.execute [operation_of Reference.select1] Reference.world0).2).2
    4%positive !! "references" = Some (SData (DArr 2 []))
  ∧ deref ((Adaptor.execute [operation_of Reference.select1] Reference.world0).1
             1%positive
             ((Adaptor.execute [operation_of Reference.select1] Reference.world0).1
                1%positive
                (Adaptor.execute [operation_of Reference.select1]
                   Reference.world0).2).2).2
      7%positive !! "references" = Some (SData (DArr 2 [])).
Proof.
  destruct (references_shared_between_runs (H:=Reference.libs)
              [Reference.select1] Reference.world0
              1%positive
              (Adaptor.execute [operation_of Reference.select1] Reference.world0).2
              4%positive
              ((Adaptor.execute [operation_of Reference.select1] Reference.world0).1
                 1%positive
                 (Adaptor.execute [operation_of Reference.select1]
                    Reference.world0).2).2
              1%positive
              ((Adaptor.execute [operation_of Reference.select1] Reference.world0).1
                 1%positive
                 (Adaptor.execute [operation_of Reference.select1]
                    Reference.world0).2).2
              7%positive
              ((Adaptor.execute [operation_of Reference.select1] Reference.world0).1
                 1%positive
                 ((Adaptor.execute [operation_of Reference.select1]
                     Reference.world0).1
                    1%positive
                    (Adaptor.execute [operation_of Reference.select1]
                       Reference.world0).2).2).2)
    as (H1 & H2 & _); [vm_compute; reflexivity ..|].
  split; [exact H1|exact H2].
Defined.


(** X17 at a pipeline of one [insert]. *)
Lemma run_never_returns_connection_witness :
  deref (Adaptor.run [operation_of Reference.insert1] 1%positive Reference.world0).2
    4%positive !! "connection" = None
  ∧ ∃ c, last (calls (Adaptor.run [operation_of Reference.insert1]
                        1%positive Reference.world0).2) = Some (End c).
Proof.
  apply (run_never_returns_connection [operation_of Reference.insert1]
           Reference.world0 1%positive
           (set_next_id 3 Reference.world0) 4%positive).
  vm_compute. reflexivity.
Defined.

(** X18 at a pipeline of an [insert] and a [sqlString]. *)
Lemma run_returns_last_response_witness :
  deref (Adaptor.run
           (map (operation_of (H:=Reference.libs))
              ([Reference.insert1] ++ [Reference.select1]))
           1%positive Reference.world0).2 5%positive !! "response"
  = Some (SData (DObj 12 [("body", DArr 10 [DObj 11 [("1", DNum 1)]])])).
Proof.
  destruct (run_returns_last_response (H:=Reference.libs)
              [Reference.insert1] Reference.select1 1%positive Reference.world0
              5%positive
              (Adaptor.run
                 (map (operation_of (H:=Reference.libs))
                    ([Reference.insert1] ++ [Reference.select1]))
                 1%positive Reference.world0).2)
    as (si & wi & s2 & w2 & bid & body & _ & _ & _ & Hlast);
    [vm_compute; reflexivity|].
  vm_compute. reflexivity.
Defined.

(** X19 at a statement the database refuses. *)
Lemma statement_logged_before_sending_witness :
  console (operation_of Reference.selec Reference.state1 Reference.world1).2
  = console Reference.world1
    ++ [LStr "Executing MySQL statement: SELEC"; That's_an_error].
Proof.
  destruct (statement_logged_before_sending (H:=Reference.libs) Reference.selec
              Reference.state1 Reference.world1 "SELEC") as (rest & _ & _);
    [vm_compute; reflexivity|].
  vm_compute. reflexivity.
Defined.

(** X1 at a State that has only [data]. *)
Lemma connect_rejects_without_configuration_witness :
  Adaptor.connect 1%positive Cases.bare_world
  = (Rejected missing_configuration, Cases.bare_world).
Proof.
  destruct (connect_rejects_without_configuration 1%positive Cases.bare_world)
    as ([Hno _] & Hrejects & _).
  apply Hrejects, Hno. left. vm_compute. reflexivity.
Defined.

(** X13 at a State that holds a connection. *)
Lemma cleanupState_idempotent_witness :
  Adaptor.cleanupState Reference.state1
    (Adaptor.cleanupState Reference.state1 Reference.world1).2
  = Adaptor.cleanupState Reference.state1 Reference.world1.
Proof.
  destruct (cleanupState_idempotent Reference.state1 Reference.world1) as [Hid _].
  exact Hid.
Defined.

(** X14 at the statement of the example fields. *)
Lemma upsert_extends_insert_witness :
  ∃ i,
    Adaptor.insert_statement (H:=Reference.libs) "t" Reference.fields1
      Reference.state0 = inr i
    ∧ String.prefix (i +:+ Adaptor.ON_DUPLICATE_KEY_UPDATE)
        "INSERT INTO t (`a`, `b`) VALUES (1, 'x') ON DUPLICATE KEY UPDATE  `a` = 1, `b` = 'x'"
      = true.
Proof.
  destruct (upsert_extends_insert (H:=Reference.libs) "t" Reference.fields1
              Reference.state0) as [_ Hupsert].
  apply Hupsert. vm_compute. reflexivity.
Defined.
